(** * Verification of [fix_viewmodel.py]

    The script reads one C# source file as text, applies two literal
    [str.replace] substitutions in sequence, writes the text back and
    prints a confirmation line.  This development embeds

    - Python's [str] operations used by the script ([Str]),
    - the [utf-8-sig] codec and the newline handling of a text-mode
      [open] with the default [newline=None] ([Codec], [TextIO]),
    - the script itself, statement by statement, over an explicit model
      of the file, the standard output and the raised exception
      ([FixViewModel]),

    and then proves the properties of the patch. *)

From Stdlib Require Import List NArith Lia Bool PeanoNat Wf_nat.
From Stdlib.Strings Require Import String Ascii Byte.
Import ListNotations.

Local Open Scope N_scope.
Local Open Scope list_scope.

(* ================================================================== *)
(** * Part I: the embedding                                            *)
(* ================================================================== *)

(** ** Python [str]: a sequence of Unicode code points *)

Module Str.

(** A Python [str] is a sequence of code points; a code point is a number
    in [0, 0x10FFFF]. *)
Definition text := list N.

(** An ASCII literal as a [text]. *)
Definition txt (s : string) : text :=
  map N_of_ascii (list_ascii_of_string s).
Arguments txt s%_string.

Definition LF : N := 10.
Definition CR : N := 13.

(** [s.startswith(p)] *)
Fixpoint startswith (s p : text) : bool :=
  match p, s with
  | [], _ => true
  | _ :: _, [] => false
  | a :: p', b :: s' => (a =? b) && startswith s' p'
  end.

(** [p in s]: [p] occurs in [s] as a contiguous block. *)
Fixpoint contains (s p : text) : bool :=
  startswith s p ||
  match s with
  | [] => false
  | _ :: s' => contains s' p
  end.

(** The scan of [s.replace(old, new)] for a non-empty [old], left to
    right.  [skip] counts the characters of the occurrence just replaced
    that are still to be passed over; with [skip = 0] the scan is at a free
    position: an occurrence of [old] that starts here is replaced by [new]
    and passed over, any other character is copied. *)
Fixpoint replace_scan (old new : text) (skip : nat) (s : text) : text :=
  match s with
  | [] => []
  | c :: s' =>
      match skip with
      | S k => replace_scan old new k s'
      | O =>
          if startswith s old
          then new ++ replace_scan old new (pred (List.length old)) s'
          else c :: replace_scan old new 0 s'
      end
  end.

(** [s.replace(old, new)]: every non-overlapping occurrence of [old], found
    left to right, is replaced by [new].  For the empty [old] Python puts
    [new] before every character and at the end. *)
Definition replace (s old new : text) : text :=
  match old with
  | [] => new ++ flat_map (fun c => c :: new) s
  | _ :: _ => replace_scan old new 0 s
  end.

End Str.

Import Str.

(** ** The [utf-8-sig] codec *)

Module Codec.

Definition bytes := list byte.

(** [codecs.BOM_UTF8] *)
Definition BOM_UTF8 : bytes := [xef; xbb; xbf].

Definition byte_of_N (n : N) : byte :=
  match Byte.of_N n with
  | Some b => b
  | None => x00
  end.

(** The payload of a continuation byte [10xxxxxx]. *)
Definition continuation (b : byte) : option N :=
  let n := Byte.to_N b in
  if (0x80 <=? n) && (n <=? 0xBF) then Some (n - 0x80) else None.

Definition is_surrogate (c : N) : bool := (0xD800 <=? c) && (c <=? 0xDFFF).

(** [codecs.utf_8_decode(bs, 'strict', True)]: [None] stands for
    [UnicodeDecodeError].  A sequence is refused when a continuation byte
    is missing or out of [0x80..0xBF], when it is longer than its code point
    needs, when it encodes a surrogate, and when it exceeds [0x10FFFF]. *)
Fixpoint utf_8_decode (bs : bytes) : option text :=
  match bs with
  | [] => Some []
  | b0 :: r0 =>
      let n0 := Byte.to_N b0 in
      if n0 <? 0x80 then option_map (cons n0) (utf_8_decode r0)
      else if n0 <? 0xC0 then None
      else if n0 <? 0xE0 then
        match r0 with
        | b1 :: r1 =>
            match continuation b1 with
            | Some c1 =>
                let c := (n0 - 0xC0) * 64 + c1 in
                if c <? 0x80 then None
                else option_map (cons c) (utf_8_decode r1)
            | None => None
            end
        | [] => None
        end
      else if n0 <? 0xF0 then
        match r0 with
        | b1 :: b2 :: r2 =>
            match continuation b1, continuation b2 with
            | Some c1, Some c2 =>
                let c := (n0 - 0xE0) * 4096 + c1 * 64 + c2 in
                if (c <? 0x800) || is_surrogate c then None
                else option_map (cons c) (utf_8_decode r2)
            | _, _ => None
            end
        | _ => None
        end
      else if n0 <? 0xF8 then
        match r0 with
        | b1 :: b2 :: b3 :: r3 =>
            match continuation b1, continuation b2, continuation b3 with
            | Some c1, Some c2, Some c3 =>
                let c := (n0 - 0xF0) * 262144 + c1 * 4096 + c2 * 64 + c3 in
                if (c <? 0x10000) || (0x10FFFF <? c) then None
                else option_map (cons c) (utf_8_decode r3)
            | _, _, _ => None
            end
        | _ => None
        end
      else None
  end.

(** The UTF-8 form of one code point; [None] stands for
    [UnicodeEncodeError] (a surrogate). *)
Definition encode_point (c : N) : option bytes :=
  if c <? 0x80 then Some [byte_of_N c]
  else if c <? 0x800 then
    Some [byte_of_N (0xC0 + c / 64); byte_of_N (0x80 + c mod 64)]
  else if c <? 0x10000 then
    if is_surrogate c then None
    else Some [byte_of_N (0xE0 + c / 4096);
               byte_of_N (0x80 + (c / 64) mod 64);
               byte_of_N (0x80 + c mod 64)]
  else if c <? 0x110000 then
    Some [byte_of_N (0xF0 + c / 262144);
          byte_of_N (0x80 + (c / 4096) mod 64);
          byte_of_N (0x80 + (c / 64) mod 64);
          byte_of_N (0x80 + c mod 64)]
  else None.

(** [codecs.utf_8_encode(t, 'strict')] *)
Fixpoint utf_8_encode (t : text) : option bytes :=
  match t with
  | [] => Some []
  | c :: r =>
      match encode_point c, utf_8_encode r with
      | Some a, Some b => Some (a ++ b)
      | _, _ => None
      end
  end.

Fixpoint bytes_startswith (bs p : bytes) : bool :=
  match p, bs with
  | [], _ => true
  | _ :: _, [] => false
  | a :: p', b :: bs' => Byte.eqb a b && bytes_startswith bs' p'
  end.

(** The incremental [utf-8-sig] decoder of [encodings/utf_8_sig.py], fed the
    whole file with [final=True], as [f.read()] does.  With fewer than three
    bytes that are a prefix of the BOM it returns the empty text and
    consumes nothing; a leading BOM is dropped; everything else is UTF-8. *)
Definition utf_8_sig_decode (bs : bytes) : option text :=
  if (List.length bs <? 3)%nat then
    if bytes_startswith BOM_UTF8 bs then Some [] else utf_8_decode bs
  else if bytes_startswith bs BOM_UTF8 then utf_8_decode (skipn 3 bs)
  else utf_8_decode bs.

(** The incremental [utf-8-sig] encoder at its first (and here only) call:
    the BOM, then UTF-8. *)
Definition utf_8_sig_encode (t : text) : option bytes :=
  option_map (app BOM_UTF8) (utf_8_encode t).

End Codec.

Import Codec.

(** ** Text-mode files opened with [newline=None] *)

Module TextIO.

(** [os.linesep] differs between the two families of platforms. *)
Inductive platform := Posix | Windows.

(** Reading with universal newlines: ["\r\n"] and a lone ["\r"] both become
    ["\n"]. *)
Fixpoint translate_read (s : text) : text :=
  match s with
  | [] => []
  | c :: r =>
      if c =? CR then
        match r with
        | d :: r' =>
            if d =? LF then LF :: translate_read r'
            else LF :: translate_read r
        | [] => [LF]
        end
      else c :: translate_read r
  end.

(** [writenl] of the text wrapper: unset where [os.linesep] is ["\n"]. *)
Definition writenl (p : platform) : option text :=
  match p with
  | Posix => None
  | Windows => Some [CR; LF]
  end.

(** Writing: [text.replace("\n", writenl)] when [writenl] is set. *)
Definition translate_write (p : platform) (s : text) : text :=
  match writenl p with
  | Some sep => Str.replace s [LF] sep
  | None => s
  end.

End TextIO.

Import TextIO.

(** ** The script *)

Module FixViewModel.

(** *** The constants of the script *)

Definition nl : text := [LF].
Definition dq : N := 34.
Definition e_acute : N := 0xE9.
Definition a_grave : N := 0xE0.
Definition e_grave : N := 0xE8.
Definition U0001f517 : N := 0x1F517.
Definition U0001f4cb : N := 0x1F4CB.
Definition U0001f5dc : N := 0x1F5DC.
Definition U0001f4e7 : N := 0x1F4E7.
Definition U0001f5d1 : N := 0x1F5D1.
Definition ufe0f : N := 0xFE0F.
Definition u274c : N := 0x274C.

Definition old_notif : text :=
  txt "            var message = action.ActionType switch" ++ nl ++
  txt "            {" ++ nl ++
  txt "                FileActionType.CopyUrl => " ++ [dq] ++ txt "URL copi" ++ [e_acute] ++ txt "e" ++ [dq] ++ txt "," ++ nl ++
  txt "                FileActionType.Delete => " ++ [dq] ++ txt "Envoy" ++ [e_acute] ++ txt " " ++ [a_grave] ++ txt " la corbeille" ++ [dq] ++ txt "," ++ nl ++
  txt "                _ => null" ++ nl ++
  txt "            };".

Definition new_notif : text :=
  txt "            var message = action.ActionType switch" ++ nl ++
  txt "            {" ++ nl ++
  txt "                FileActionType.CopyUrl => " ++ [dq; U0001f517] ++ txt " URL copi" ++ [e_acute] ++ txt "e" ++ [dq] ++ txt "," ++ nl ++
  txt "                FileActionType.CopyPath => " ++ [dq; U0001f4cb] ++ txt " Chemin copi" ++ [e_acute; dq] ++ txt "," ++ nl ++
  txt "                FileActionType.CopyName => " ++ [dq; U0001f4cb] ++ txt " Nom copi" ++ [e_acute; dq] ++ txt "," ++ nl ++
  txt "                FileActionType.Compress => " ++ [dq; U0001f5dc; ufe0f] ++ txt " Archive ZIP cr" ++ [e_acute; e_acute] ++ txt "e" ++ [dq] ++ txt "," ++ nl ++
  txt "                FileActionType.SendByEmail => " ++ [dq; U0001f4e7] ++ txt " Email en cours..." ++ [dq] ++ txt "," ++ nl ++
  txt "                FileActionType.Delete => " ++ [dq; U0001f5d1; ufe0f] ++ txt " Envoy" ++ [e_acute] ++ txt " " ++ [a_grave] ++ txt " la corbeille" ++ [dq] ++ txt "," ++ nl ++
  txt "                _ => null" ++ nl ++
  txt "            };".

Definition old_close : text :=
  txt "            // Fermer apr" ++ [e_grave] ++ txt "s certaines actions" ++ nl ++
  txt "            if (action.ActionType is FileActionType.Open " ++ nl ++
  txt "                or FileActionType.RunAsAdmin " ++ nl ++
  txt "                or FileActionType.OpenPrivate)" ++ nl ++
  txt "            {" ++ nl ++
  txt "                _indexingService.RecordUsage(result);" ++ nl ++
  txt "                RequestHide?.Invoke(this, EventArgs.Empty);" ++ nl ++
  txt "            }" ++ nl ++
  txt "        }" ++ nl ++
  txt "        " ++ nl ++
  txt "        ShowActionsPanel = false;" ++ nl ++
  txt "    }".

Definition new_close : text :=
  txt "            // Fermer apr" ++ [e_grave] ++ txt "s les actions qui ouvrent quelque chose" ++ nl ++
  txt "            if (action.ActionType is FileActionType.Open " ++ nl ++
  txt "                or FileActionType.RunAsAdmin " ++ nl ++
  txt "                or FileActionType.OpenPrivate" ++ nl ++
  txt "                or FileActionType.OpenWith" ++ nl ++
  txt "                or FileActionType.OpenLocation" ++ nl ++
  txt "                or FileActionType.OpenInTerminal" ++ nl ++
  txt "                or FileActionType.OpenInExplorer" ++ nl ++
  txt "                or FileActionType.OpenInVSCode" ++ nl ++
  txt "                or FileActionType.EditInEditor" ++ nl ++
  txt "                or FileActionType.SendByEmail)" ++ nl ++
  txt "            {" ++ nl ++
  txt "                _indexingService.RecordUsage(result);" ++ nl ++
  txt "                RequestHide?.Invoke(this, EventArgs.Empty);" ++ nl ++
  txt "            }" ++ nl ++
  txt "        }" ++ nl ++
  txt "        else" ++ nl ++
  txt "        {" ++ nl ++
  txt "            if (action.ActionType == FileActionType.OpenInVSCode)" ++ nl ++
  txt "                ShowNotification?.Invoke(this, " ++ [dq; u274c] ++ txt " VS Code introuvable" ++ [dq] ++ txt ");" ++ nl ++
  txt "        }" ++ nl ++
  txt "        " ++ nl ++
  txt "        ShowActionsPanel = false;" ++ nl ++
  txt "    }".

(** *** The world the script runs in *)

(** The exceptions the script can end with. *)
Inductive exn :=
| FileNotFoundError
| PermissionError
| UnicodeDecodeError
| UnicodeEncodeError.

(** What happens to the file at [file_path]. *)
Inductive fs_event :=
| OpenedForReading
| OpenedForWriting
| Wrote (data : bytes).

(** The file at [file_path] ([None]: there is no such file), whether the
    process may read and write it, the lines printed so far and the
    operations done on the file so far, oldest first. *)
Record world := World {
  disk : option bytes;
  readable : bool;
  writable : bool;
  stdout : list text;
  fs_log : list fs_event
}.

Definition set_disk (d : option bytes) (w : world) : world :=
  World d (readable w) (writable w) (stdout w) (fs_log w).

Definition log (e : fs_event) (w : world) : world :=
  World (disk w) (readable w) (writable w) (stdout w) (fs_log w ++ [e]).

Definition emit (line : text) (w : world) : world :=
  World (disk w) (readable w) (writable w) (stdout w ++ [line]) (fs_log w).

(** A statement runs in a world and leaves a world, with a value or with
    the exception that ended it; what was done before the exception
    stays done. *)
Definition IO (A : Type) : Type := world -> world * (exn + A).

Definition ret {A} (a : A) : IO A := fun w => (w, inr a).

Definition raise {A} (e : exn) : IO A := fun w => (w, inl e).

Definition bind {A B} (c : IO A) (k : A -> IO B) : IO B :=
  fun w =>
    match c w with
    | (w', inr a) => k a w'
    | (w', inl e) => (w', inl e)
    end.

Notation "x <- c ;; k" := (bind c (fun x => k))
  (at level 61, c at next level, right associativity).
Notation "c ;; k" := (bind c (fun _ => k))
  (at level 61, right associativity).

(** [open(file_path, 'r', encoding='utf-8-sig')] followed by the raw read
    of the whole file. *)
Definition open_for_reading : IO bytes :=
  fun w =>
    match disk w with
    | None => (w, inl FileNotFoundError)
    | Some data =>
        if readable w then (log OpenedForReading w, inr data)
        else (w, inl PermissionError)
    end.

(** [f.read()]: decode, then translate the newlines. *)
Definition decode_text (data : bytes) : IO text :=
  match utf_8_sig_decode data with
  | Some t => ret (translate_read t)
  | None => raise UnicodeDecodeError
  end.

(** [open(file_path, 'w', encoding='utf-8-sig')]: the file is truncated as
    it is opened. *)
Definition open_for_writing : IO unit :=
  fun w =>
    if writable w then (log OpenedForWriting (set_disk (Some []) w), inr tt)
    else (w, inl PermissionError).

(** [f.write(content)] and the flush when the [with] block ends.  Of the
    ways the write can fail this covers the encoding; a failure of the
    operating system while the bytes are written (a full disk, say) is not
    modelled: [writable] stands for a file that can be opened for writing
    and written. *)
Definition write_text (p : platform) (content : text) : IO unit :=
  match utf_8_sig_encode (translate_write p content) with
  | Some data => fun w => (log (Wrote data) (set_disk (Some data) w), inr tt)
  | None => raise UnicodeEncodeError
  end.

(** [print(line)] *)
Definition print (line : text) : IO unit :=
  fun w => (emit line w, inr tt).

(** The two [content = content.replace(...)] statements. *)
Definition patch (content : text) : text :=
  let content := replace content old_notif new_notif in
  let content := replace content old_close new_close in
  content.

(** The whole script, top to bottom. *)
Definition main (p : platform) : IO unit :=
  data <- open_for_reading ;;
  content <- decode_text data ;;
  let content := replace content old_notif new_notif in
  let content := replace content old_close new_close in
  open_for_writing ;;
  write_text p content ;;
  print (txt "ViewModel updated successfully").

End FixViewModel.

Import FixViewModel.

(* ================================================================== *)
(** * Part II: the vocabulary of the properties                         *)
(* ================================================================== *)

(** ** Occurrences that can share characters *)

(** A non-empty suffix of [a] is a prefix of [b]: an occurrence of [a] can
    run into an occurrence of [b]. *)
Fixpoint border (a b : text) : bool :=
  match a with
  | [] => false
  | _ :: a' => startswith b a || border a' b
  end.

(** Occurrences of [a] and [b] can share characters: one block lies inside
    the other, or an end of one is a beginning of the other. *)
Definition overlap (a b : text) : bool :=
  contains a b || contains b a || border a b || border b a.

(** A proper, non-empty end of [a] is also a beginning of [a]: two
    occurrences of [a] can overlap. *)
Definition self_border (a : text) : bool :=
  match a with
  | [] => false
  | _ :: a' => border a' a
  end.

(** ** Texts the codec can carry *)

(** A code point that UTF-8 can carry: up to [0x10FFFF] and no surrogate. *)
Definition is_scalar (c : N) : bool :=
  (c <? 0x110000) && negb (is_surrogate c).

(** ** Line breaks *)

(** Every line break of [s] is ["\r\n"]. *)
Fixpoint crlf_only (s : text) : bool :=
  match s with
  | [] => true
  | c :: r =>
      if c =? CR then
        match r with
        | d :: r' => (d =? LF) && crlf_only r'
        | [] => false
        end
      else negb (c =? LF) && crlf_only r
  end.

(** The line breaks of [t] are the ones the platform writes: ["\n"] alone
    where [os.linesep] is ["\n"], ["\r\n"] alone on Windows. *)
Definition native_newlines (p : platform) (t : text) : bool :=
  match p with
  | Posix => negb (existsb (N.eqb CR) t)
  | Windows => crlf_only t
  end.

(** What the write makes of one character. *)
Definition write_char (p : platform) (d : N) : text :=
  match p with
  | Posix => [d]
  | Windows => if d =? LF then [CR; LF] else [d]
  end.

Definition no_CR (c : N) : bool := negb (CR =? c).

(** ** The script as a whole *)

(** The line the script prints. *)
Definition confirmation : text := txt "ViewModel updated successfully".

(** The text [f.read()] returns for the file of world [w], if the file is
    there and decodes. *)
Definition file_text (w : world) : option text :=
  match disk w with
  | Some data => option_map translate_read (utf_8_sig_decode data)
  | None => None
  end.

(** The two rules, in the order of the script. *)
Definition rules : list (text * text) :=
  [(old_notif, new_notif); (old_close, new_close)].

(** The UTF-8 bytes of a text of scalar values, to write files down. *)
Definition bytes_of (t : text) : bytes :=
  match utf_8_encode t with
  | Some data => data
  | None => []
  end.

(** ** The blocks the scenarios name *)

Definition indent16 : text := txt "                ".

(** The [Delete] entry before and after the patch, as the specification
    quotes them. *)
Definition old_delete_entry : text :=
  txt "FileActionType.Delete => " ++ [dq] ++ txt "Envoy" ++ [e_acute] ++ txt " " ++ [a_grave] ++ txt " la corbeille" ++ [dq] ++ txt ",".

Definition new_delete_entry : text :=
  txt "FileActionType.Delete => " ++ [dq; U0001f5d1; ufe0f] ++ txt " Envoy" ++ [e_acute] ++ txt " " ++ [a_grave] ++ txt " la corbeille" ++ [dq] ++ txt ",".

(** The four entries the first rule adds, each a line of its own. *)
Definition copy_path_line : text :=
  indent16 ++ txt "FileActionType.CopyPath => " ++ [dq; U0001f4cb] ++ txt " Chemin copi" ++ [e_acute; dq] ++ txt "," ++ nl.

Definition copy_name_line : text :=
  indent16 ++ txt "FileActionType.CopyName => " ++ [dq; U0001f4cb] ++ txt " Nom copi" ++ [e_acute; dq] ++ txt "," ++ nl.

Definition compress_line : text :=
  indent16 ++ txt "FileActionType.Compress => " ++ [dq; U0001f5dc; ufe0f] ++ txt " Archive ZIP cr" ++ [e_acute; e_acute] ++ txt "e" ++ [dq] ++ txt "," ++ nl.

Definition send_by_email_line : text :=
  indent16 ++ txt "FileActionType.SendByEmail => " ++ [dq; U0001f4e7] ++ txt " Email en cours..." ++ [dq] ++ txt "," ++ nl.

(** The four added lines, in order, and right after them the line of the
    new [Delete] entry. *)
Definition added_then_delete : text :=
  copy_path_line ++ copy_name_line ++ compress_line ++ send_by_email_line ++
  indent16 ++ new_delete_entry.

(** The close-after-action block with the space at the end of its second
    line trimmed: the condition still lists [Open], [RunAsAdmin] and
    [OpenPrivate] only. *)
Definition old_close_trimmed : text :=
  txt "            // Fermer apr" ++ [e_grave] ++ txt "s certaines actions" ++ nl ++
  txt "            if (action.ActionType is FileActionType.Open" ++ nl ++
  txt "                or FileActionType.RunAsAdmin " ++ nl ++
  txt "                or FileActionType.OpenPrivate)" ++ nl ++
  txt "            {" ++ nl ++
  txt "                _indexingService.RecordUsage(result);" ++ nl ++
  txt "                RequestHide?.Invoke(this, EventArgs.Empty);" ++ nl ++
  txt "            }" ++ nl ++
  txt "        }" ++ nl ++
  txt "        " ++ nl ++
  txt "        ShowActionsPanel = false;" ++ nl ++
  txt "    }".

(** The condition of the patched block: the three action types of the old
    one and the seven added ones. *)
Definition new_condition : text :=
  txt "            if (action.ActionType is FileActionType.Open " ++ nl ++
  txt "                or FileActionType.RunAsAdmin " ++ nl ++
  txt "                or FileActionType.OpenPrivate" ++ nl ++
  txt "                or FileActionType.OpenWith" ++ nl ++
  txt "                or FileActionType.OpenLocation" ++ nl ++
  txt "                or FileActionType.OpenInTerminal" ++ nl ++
  txt "                or FileActionType.OpenInExplorer" ++ nl ++
  txt "                or FileActionType.OpenInVSCode" ++ nl ++
  txt "                or FileActionType.EditInEditor" ++ nl ++
  txt "                or FileActionType.SendByEmail)" ++ nl.

(** The added [else] branch. *)
Definition else_branch : text :=
  txt "        else" ++ nl ++
  txt "        {" ++ nl ++
  txt "            if (action.ActionType == FileActionType.OpenInVSCode)" ++ nl ++
  txt "                ShowNotification?.Invoke(this, " ++ [dq; u274c] ++ txt " VS Code introuvable" ++ [dq] ++ txt ");" ++ nl ++
  txt "        }" ++ nl.

(** [b] is [p] with one character changed into another, or with one
    character left out. *)
Inductive one_char_off (p : text) : text -> Prop :=
| changed (l : text) (c c' : N) (r : text) :
    p = l ++ c :: r -> c <> c' -> one_char_off p (l ++ c' :: r)
| dropped (l : text) (c : N) (r : text) :
    p = l ++ c :: r -> one_char_off p (l ++ r).

(** The first block with its first space turned into a tab. *)
Definition old_notif_tabbed : text := 9 :: tl old_notif.

(** The world whose file holds [data], readable and writable, with nothing
    printed and nothing done yet. *)
Definition fresh (data : bytes) : world := World (Some data) true true [] [].

Definition abc : bytes := [x61; x62; x63].

(** Three small files that begin with a BOM: [a], a line break, [b]. *)
Definition a_CR_b : bytes := BOM_UTF8 ++ [x61; x0d; x62].
Definition a_LF_b : bytes := BOM_UTF8 ++ [x61; x0a; x62].
Definition a_CRLF_b : bytes := BOM_UTF8 ++ [x61; x0d; x0a; x62].

(** A small file text that holds both old blocks, with text before,
    between and after them. *)
Definition sample_head : text := txt "class LauncherViewModel {" ++ nl.
Definition sample_middle : text := nl ++ txt "            Notify(message);" ++ nl.
Definition sample_tail : text := nl ++ txt "}" ++ nl.
Definition sample_text : text :=
  sample_head ++ old_notif ++ sample_middle ++ old_close ++ sample_tail.

(** A file text that holds the second old block and then the first. *)
Definition both_blocks : text := old_close ++ old_notif.

(** A file with a lone carriage return, a line feed, and a carriage return
    and line feed pair. *)
Definition mixed_breaks : bytes := [x61; x0d; x62; x0a; x63; x0d; x0a; x64].

(* ================================================================== *)
(** * Part III: lemmas and theorems                                    *)
(* ================================================================== *)

(** ** Python [str] *)

Module StrFacts.

Lemma startswith_app (p r : text) : startswith (p ++ r) p = true.
Proof.
  induction p as [|a p IH]; simpl; [now destruct r|].
  now rewrite N.eqb_refl, IH.
Qed.

Lemma startswith_inv (s p : text) :
  startswith s p = true -> exists r, s = p ++ r.
Proof.
  revert s; induction p as [|a p IH]; intros s H.
  - now exists s.
  - destruct s as [|b s]; simpl in H; [discriminate|].
    apply andb_true_iff in H as [Hab Hs].
    apply N.eqb_eq in Hab; subst b.
    destruct (IH _ Hs) as [r ->]. now exists r.
Qed.

Lemma startswith_iff (s p : text) :
  startswith s p = true <-> exists r, s = p ++ r.
Proof.
  split; [apply startswith_inv|].
  intros [r ->]. apply startswith_app.
Qed.

Lemma startswith_false (s p : text) :
  startswith s p = false -> forall r, s <> p ++ r.
Proof.
  intros H r ->. now rewrite startswith_app in H.
Qed.

Lemma startswith_nil (s : text) : startswith s [] = true.
Proof. now destruct s. Qed.

Lemma contains_here (s p : text) :
  startswith s p = true -> contains s p = true.
Proof. destruct s; cbn [contains]; intros ->; reflexivity. Qed.

Lemma contains_intro (u p v : text) : contains (u ++ p ++ v) p = true.
Proof.
  induction u as [|c u IH].
  - cbn [app]. apply contains_here, startswith_app.
  - simpl. rewrite IH. apply orb_true_r.
Qed.

Lemma contains_inv (s p : text) :
  contains s p = true -> exists u v, s = u ++ p ++ v.
Proof.
  induction s as [|c s IH]; cbn [contains]; intros H.
  - rewrite orb_false_r in H. apply startswith_inv in H as [r ->].
    now exists [], r.
  - apply orb_true_iff in H as [H|H].
    + apply startswith_inv in H as [r ->]. now exists [], r.
    + destruct (IH H) as (u & v & ->). now exists (c :: u), v.
Qed.

Lemma contains_iff (s p : text) :
  contains s p = true <-> exists u v, s = u ++ p ++ v.
Proof.
  split; [apply contains_inv|].
  intros (u & v & ->). apply contains_intro.
Qed.

Lemma contains_false (s p : text) :
  contains s p = false -> forall u v, s <> u ++ p ++ v.
Proof.
  intros H u v ->. now rewrite contains_intro in H.
Qed.

Lemma contains_cons (c : N) (s p : text) :
  contains (c :: s) p = false -> contains s p = false.
Proof.
  cbn [contains]. intros H. now apply orb_false_iff in H.
Qed.

Lemma contains_startswith (s p : text) :
  contains s p = false -> startswith s p = false.
Proof.
  destruct s; cbn [contains]; intros H; now apply orb_false_iff in H.
Qed.

(** [border a b = false]: no non-empty end of [a] begins [b]. *)
Lemma border_false (a b : text) :
  border a b = false ->
  forall u x r, a = u ++ x -> x <> [] -> b <> x ++ r.
Proof.
  induction a as [|c a IH]; cbn [border]; intros H u x r E Hx.
  - destruct u; destruct x; simpl in E; congruence.
  - apply orb_false_iff in H as [H1 H2].
    destruct u as [|d u]; simpl in E.
    + subst x. now apply startswith_false.
    + injection E as _ E. now apply (IH H2 u x r).
Qed.

(** [self_border a = false]: no proper, non-empty end of [a] begins [a]. *)
Lemma self_border_false (a : text) :
  self_border a = false ->
  forall u x r, a = u ++ x -> u <> [] -> x <> [] -> a <> x ++ r.
Proof.
  destruct a as [|c a]; cbn [self_border]; intros H u x r E Hu Hx.
  - destruct u; [contradiction|discriminate].
  - destruct u as [|d u]; [contradiction|].
    cbn [app] in E. injection E as _ E.
    exact (border_false _ _ H u x r E Hx).
Qed.

Lemma nonempty_inv (a : text) : a <> [] -> exists c a', a = c :: a'.
Proof. destruct a as [|c a']; [contradiction|]. now exists c, a'. Qed.

(** A beginning of [a ++ y] no longer than [a] is a beginning of [a]. *)
Lemma app_short_prefix (a y x t : text) :
  a ++ y = x ++ t -> (List.length x <= List.length a)%nat ->
  exists r, a = x ++ r.
Proof.
  intros E Hlen. apply app_eq_app in E as [l [[E1 _]|[E1 _]]].
  - now exists l.
  - assert (l = []) as ->.
    { apply (f_equal (@List.length N)) in E1. rewrite length_app in E1.
      destruct l; [reflexivity|cbn [List.length] in E1; lia]. }
    exists []. now rewrite E1, !app_nil_r.
Qed.

Lemma overlap_false (a b : text) :
  overlap a b = false ->
  contains a b = false /\ contains b a = false /\
  border a b = false /\ border b a = false.
Proof.
  unfold overlap. intros H.
  repeat (apply orb_false_iff in H as [H ?]). auto.
Qed.

Lemma overlap_sym (a b : text) : overlap a b = overlap b a.
Proof.
  unfold overlap.
  destruct (contains a b), (contains b a), (border a b), (border b a);
    reflexivity.
Qed.

(** *** The equations of [replace] *)

Lemma replace_scan_skip (old new : text) (k : nat) (s : text) :
  replace_scan old new k s = replace_scan old new 0 (skipn k s).
Proof.
  revert k; induction s as [|c s IH]; intros [|k]; simpl; auto.
Qed.

Lemma skipn_length_app (o r : text) : skipn (List.length o) (o ++ r) = r.
Proof. induction o; simpl; auto. Qed.

Section Replace.

Variables old new : text.
Hypothesis old_nonempty : old <> [].

Lemma replace_nil : replace [] old new = [].
Proof. unfold replace. now destruct old. Qed.

(** An occurrence at the current position is replaced, and the scan goes on
    after it. *)
Lemma replace_hit (r : text) :
  replace (old ++ r) old new = new ++ replace r old new.
Proof.
  unfold replace. destruct old as [|a o]; [congruence|].
  pose proof (startswith_app (a :: o) r) as Hs. cbn [app] in Hs.
  cbn [app replace_scan]. rewrite Hs.
  cbn [List.length pred]. rewrite replace_scan_skip, skipn_length_app.
  reflexivity.
Qed.

(** A position where no occurrence starts is copied. *)
Lemma replace_miss (c : N) (s : text) :
  startswith (c :: s) old = false ->
  replace (c :: s) old new = c :: replace s old new.
Proof.
  unfold replace. destruct old as [|a o]; [congruence|].
  intros H. cbn [replace_scan]. now rewrite H.
Qed.

(** Induction along the scan. *)
Lemma replace_ind (P : text -> text -> Prop) :
  P [] [] ->
  (forall r, P r (replace r old new) ->
             P (old ++ r) (new ++ replace r old new)) ->
  (forall c s, startswith (c :: s) old = false ->
               P s (replace s old new) ->
               P (c :: s) (c :: replace s old new)) ->
  forall s, P s (replace s old new).
Proof.
  intros Hnil Hhit Hmiss s.
  remember (List.length s) as n eqn:Hn.
  revert s Hn. induction n as [n IH] using lt_wf_ind. intros s Hn.
  destruct s as [|c s].
  - rewrite replace_nil. exact Hnil.
  - destruct (startswith (c :: s) old) eqn:E.
    + apply startswith_inv in E as [r E]. rewrite E, replace_hit.
      apply Hhit. apply (IH (List.length r)); [|reflexivity].
      subst n. rewrite E, length_app.
      destruct old; [congruence|simpl; lia].
    + rewrite (replace_miss _ _ E). apply Hmiss; [exact E|].
      apply (IH (List.length s)); [subst n; simpl; lia|reflexivity].
Qed.

(** Text without an occurrence of [old] is left as it is. *)
Lemma replace_absent (s : text) :
  contains s old = false -> replace s old new = s.
Proof.
  induction s as [|c s IH]; intros H.
  - apply replace_nil.
  - rewrite replace_miss by now apply contains_startswith.
    f_equal. apply IH. now apply contains_cons in H.
Qed.

(** *** Every occurrence is replaced *)

(** When two occurrences of [old] cannot overlap, the scan splits at any
    occurrence: that occurrence is replaced, and so is what the scan does
    on either side of it. *)
Lemma replace_occurrence (x y : text) :
  self_border old = false ->
  replace (x ++ old ++ y) old new =
  replace x old new ++ new ++ replace y old new.
Proof.
  intros Hb. revert x.
  apply (replace_ind
    (fun x rx => replace (x ++ old ++ y) old new
                 = rx ++ new ++ replace y old new)).
  - apply replace_hit.
  - intros r IH. rewrite <- !app_assoc, replace_hit, IH. reflexivity.
  - intros c s Hc IH.
    cbn [app]. rewrite replace_miss; [now rewrite IH|].
    destruct (startswith (c :: s ++ old ++ y) old) eqn:E; [|reflexivity].
    exfalso. apply startswith_inv in E as [t E].
    change (c :: s ++ old ++ y) with ((c :: s) ++ old ++ y) in E.
    apply app_eq_app in E as [l [[E1 E2]|[E1 E2]]].
    + (* the occurrence starts at [c] and ends within [s] *)
      apply (startswith_false _ _ Hc l E1).
    + (* it starts at [c] and ends in the occurrence after [s] *)
      destruct l as [|d l].
      * apply (startswith_false _ _ Hc []).
        rewrite app_nil_r in *. now symmetry.
      * destruct (app_short_prefix old y (d :: l) t E2) as [r Hr].
        { rewrite E1, length_app. cbn [List.length]. lia. }
        apply (self_border_false old Hb (c :: s) (d :: l) r);
          [exact E1|discriminate|discriminate|exact Hr].
Qed.

(** *** What a replacement can create and destroy *)

Section Block.

(** A block [w] none of whose occurrences can share characters with an
    occurrence of [new]. *)
Variable w : text.
Hypothesis w_nonempty : w <> [].

(** If the output begins with an end of [w], the input begins with it
    too: the output's first characters were copied. *)
Lemma replace_prefix_copied (s w0 w1 y : text) :
  contains w new = false -> border w new = false ->
  w = w0 ++ w1 ->
  replace s old new = w1 ++ y ->
  exists y', s = w1 ++ y'.
Proof.
  intros Hin Hbd. revert s w0 w1 y.
  apply (replace_ind
    (fun s r => forall w0 w1 y, w = w0 ++ w1 -> r = w1 ++ y ->
                exists y', s = w1 ++ y')).
  - intros w0 w1 y _ E. symmetry in E. apply app_eq_nil in E as [-> _].
    now exists [].
  - intros r _ w0 w1 y Hw E.
    destruct w1 as [|d w1]; [now exists (old ++ r)|]. exfalso.
    apply app_eq_app in E as [l [[E1 E2]|[E1 E2]]].
    + (* an end of [w] begins [new] *)
      apply (border_false _ _ Hbd w0 (d :: w1) l Hw); [discriminate|exact E1].
    + (* [new] lies inside [w] *)
      apply (contains_false _ _ Hin w0 l).
      rewrite Hw, E1. reflexivity.
  - intros c s _ IH w0 w1 y Hw E.
    destruct w1 as [|d w1]; [now exists (c :: s)|].
    cbn [app] in E. injection E as Ec E. subst d.
    destruct (IH (w0 ++ [c]) w1 y) as [y' ->]; [|exact E|now exists y'].
    rewrite Hw, <- app_assoc. reflexivity.
Qed.

(** An occurrence of [w] in the output was already in the input, at a
    position the scan passed as a free one. *)
Lemma replace_creates_nothing (s x y : text) :
  overlap w new = false ->
  replace s old new = x ++ w ++ y ->
  exists x' y', s = x' ++ w ++ y' /\ startswith (w ++ y') old = false.
Proof.
  intros Hov. apply overlap_false in Hov as (Hwn & Hnw & Hbwn & Hbnw).
  revert s x y.
  apply (replace_ind
    (fun s r => forall x y, r = x ++ w ++ y ->
       exists x' y', s = x' ++ w ++ y' /\ startswith (w ++ y') old = false)).
  - intros x y E. symmetry in E.
    apply app_eq_nil in E as [_ E]. apply app_eq_nil in E as [E _].
    contradiction.
  - intros r IH x y E.
    apply app_eq_app in E as [l [[E1 E2]|[E1 E2]]].
    + destruct l as [|d l].
      * (* the occurrence starts right after the copy of [new] *)
        destruct (IH [] y (eq_sym E2)) as (x' & y' & -> & Hfree).
        exists (old ++ x'), y'. now rewrite <- app_assoc.
      * exfalso. apply app_eq_app in E2 as [m [[E3 E4]|[E3 E4]]].
        -- (* an end of [new] begins [w] *)
           apply (border_false _ _ Hbnw x (d :: l) m E1);
             [discriminate|exact E3].
        -- (* [w] lies inside the copy of [new] *)
           apply (contains_false _ _ Hnw x m). now rewrite E1, E3.
    + (* the occurrence starts after the copy of [new] *)
      destruct (IH l y E2) as (x' & y' & -> & Hfree).
      exists (old ++ x'), y'. now rewrite <- app_assoc.
  - intros c s Hc IH x y E.
    destruct x as [|d x]; cbn [app] in E.
    + destruct (nonempty_inv w w_nonempty) as (d & w1 & Ew).
      rewrite Ew in E. cbn [app] in E. injection E as Ec E.
      destruct (replace_prefix_copied s [d] w1 y) as [y' Es]; auto.
      exists [], y'. subst s c. rewrite Ew. split; [reflexivity|exact Hc].
    + injection E as Ec E. subst d.
      destruct (IH x y E) as (x' & y' & -> & Hfree).
      now exists (c :: x'), y'.
Qed.

(** A replacement creates no occurrence of a block that cannot overlap
    [new]. *)
Lemma replace_contains_back (s : text) :
  overlap w new = false ->
  contains (replace s old new) w = true -> contains s w = true.
Proof.
  intros Hov H. apply contains_inv in H as (x & y & E).
  destruct (replace_creates_nothing s x y Hov E) as (x' & y' & -> & _).
  apply contains_intro.
Qed.

(** A replacement leaves every occurrence of a block that cannot overlap
    [old] in the text. *)
Lemma replace_keeps (s : text) :
  overlap w old = false ->
  contains s w = true -> contains (replace s old new) w = true.
Proof.
  intros Hov H. apply overlap_false in Hov as (Hwo & How & Hbwo & Hbow).
  apply contains_inv in H as (pre & post & E). revert s pre E.
  (* inside [w] no occurrence of [old] starts *)
  assert (Hcopy : forall w2 w1, w = w1 ++ w2 ->
            replace (w2 ++ post) old new = w2 ++ replace post old new).
  { induction w2 as [|d w2 IH]; intros w1 Hw; [reflexivity|].
    cbn [app]. rewrite replace_miss.
    - f_equal. apply (IH (w1 ++ [d])). now rewrite <- app_assoc.
    - destruct (startswith (d :: w2 ++ post) old) eqn:E; [|reflexivity].
      exfalso. apply startswith_inv in E as [t E].
      change (d :: w2 ++ post) with ((d :: w2) ++ post) in E.
      apply app_eq_app in E as [l [[E1 E2]|[E1 E2]]].
      + apply (contains_false _ _ Hwo w1 l). now rewrite Hw, E1.
      + apply (border_false _ _ Hbwo w1 (d :: w2) l Hw);
          [discriminate|exact E1]. }
  apply (replace_ind
    (fun s r => forall pre, s = pre ++ w ++ post -> contains r w = true)).
  - intros pre E. symmetry in E.
    apply app_eq_nil in E as [_ E]. apply app_eq_nil in E as [E _].
    contradiction.
  - intros r IH pre E.
    apply app_eq_app in E as [l [[E1 E2]|[E1 E2]]].
    + destruct l as [|d l].
      * specialize (IH [] (eq_sym E2)).
        apply contains_inv in IH as (u & v & ->).
        rewrite app_assoc. apply contains_intro.
      * exfalso. apply app_eq_app in E2 as [m [[E3 E4]|[E3 E4]]].
        -- apply (border_false _ _ Hbow pre (d :: l) m E1);
             [discriminate|exact E3].
        -- apply (contains_false _ _ How pre m). now rewrite E1, E3.
    + specialize (IH l E2). apply contains_inv in IH as (u & v & ->).
      rewrite app_assoc. apply contains_intro.
  - intros c s Hc IH pre E.
    destruct pre as [|d pre]; cbn [app] in E.
    + rewrite <- replace_miss by exact Hc. rewrite E.
      rewrite (Hcopy w [] eq_refl).
      apply (contains_intro []).
    + injection E as Ec E. specialize (IH pre E).
      cbn [contains]. rewrite IH. apply orb_true_r.
Qed.

End Block.

(** The replacement of a block that overlaps neither itself nor its
    replacement leaves no occurrence of it. *)
Lemma replace_leaves_none (s : text) :
  overlap old new = false ->
  contains (replace s old new) old = false.
Proof.
  intros Hov. destruct (contains (replace s old new) old) eqn:E; [|reflexivity].
  apply contains_inv in E as (x & y & E).
  destruct (replace_creates_nothing old old_nonempty s x y Hov E)
    as (x' & y' & _ & Hfree).
  now rewrite startswith_app in Hfree.
Qed.

End Replace.

End StrFacts.

(** ** The codec *)

Module CodecFacts.

Lemma byte_of_to_N (b : byte) : byte_of_N (Byte.to_N b) = b.
Proof. unfold byte_of_N. now rewrite Byte.of_to_N. Qed.

Lemma to_N_lt (b : byte) : Byte.to_N b < 256.
Proof. pose proof (Byte.to_N_bounded b). lia. Qed.

Lemma continuation_inv (b : byte) (c : N) :
  continuation b = Some c -> c < 64 /\ Byte.to_N b = 0x80 + c.
Proof.
  unfold continuation.
  destruct (N.leb_spec 0x80 (Byte.to_N b)), (N.leb_spec (Byte.to_N b) 0xBF);
    cbn [andb]; intros [= <-]; lia.
Qed.

(** Splitting a number into a high part and six low bits. *)
Lemma six_bits (h l : N) :
  l < 64 -> (h * 64 + l) / 64 = h /\ (h * 64 + l) mod 64 = l.
Proof.
  intros Hl. split.
  - symmetry. apply (N.div_unique _ 64 h l); lia.
  - symmetry. apply (N.mod_unique _ 64 h l); lia.
Qed.

Ltac bytes_back :=
  repeat match goal with
  | H : continuation _ = Some _ |- _ =>
      apply continuation_inv in H; destruct H as [? H]
  end.

(** The first sequence of a decodable input is the UTF-8 form of the first
    character decoded. *)
Lemma utf_8_decode_cons (b0 : byte) (r0 : bytes) (t : text) :
  utf_8_decode (b0 :: r0) = Some t ->
  exists c seq rest t',
    b0 :: r0 = seq ++ rest /\ seq <> [] /\ t = c :: t' /\
    utf_8_decode rest = Some t' /\ encode_point c = Some seq.
Proof.
  cbn [utf_8_decode]. cbv zeta.
  pose proof (to_N_lt b0) as Hb0.
  set (n0 := Byte.to_N b0) in *.
  destruct (N.ltb_spec n0 0x80) as [Hr1|Hr1].
  { (* one byte *)
    destruct (utf_8_decode r0) as [t'|] eqn:Er; [|discriminate].
    intros [= <-]. exists n0, [b0], r0, t'.
    repeat split; try discriminate; auto.
    unfold encode_point. destruct (N.ltb_spec n0 0x80); [|lia].
    unfold n0. now rewrite byte_of_to_N. }
  destruct (N.ltb_spec n0 0xC0) as [Hr2|Hr2]; [discriminate|].
  destruct (N.ltb_spec n0 0xE0) as [Hr3|Hr3].
  { (* two bytes *)
    destruct r0 as [|b1 r1]; [discriminate|].
    destruct (continuation b1) as [c1|] eqn:E1; [|discriminate].
    bytes_back.
    set (c := (n0 - 0xC0) * 64 + c1).
    destruct (N.ltb_spec c 0x80) as [Hmin|Hmin]; [discriminate|].
    destruct (utf_8_decode r1) as [t'|] eqn:Er; [|discriminate].
    intros [= <-]. exists c, [b0; b1], r1, t'.
    repeat split; try discriminate; auto.
    destruct (six_bits (n0 - 0xC0) c1) as [Hd Hm]; [assumption|].
    fold c in Hd, Hm.
    unfold encode_point.
    destruct (N.ltb_spec c 0x80); [lia|].
    destruct (N.ltb_spec c 0x800); [|unfold c in *; lia].
    rewrite Hd, Hm.
    replace (0xC0 + (n0 - 0xC0)) with n0 by lia.
    rewrite <- E1. unfold n0. now rewrite !byte_of_to_N. }
  destruct (N.ltb_spec n0 0xF0) as [Hr4|Hr4].
  { (* three bytes *)
    destruct r0 as [|b1 [|b2 r2]]; try discriminate.
    destruct (continuation b1) as [c1|] eqn:E1; [|discriminate].
    destruct (continuation b2) as [c2|] eqn:E2; [|discriminate].
    bytes_back.
    set (c := (n0 - 0xE0) * 4096 + c1 * 64 + c2).
    destruct (N.ltb_spec c 0x800) as [Hmin|Hmin]; [discriminate|].
    destruct (is_surrogate c) eqn:Hs; [discriminate|]. cbn [orb].
    destruct (utf_8_decode r2) as [t'|] eqn:Er; [|discriminate].
    intros [= <-]. exists c, [b0; b1; b2], r2, t'.
    repeat split; try discriminate; auto.
    assert (Ec : c = ((n0 - 0xE0) * 64 + c1) * 64 + c2) by (unfold c; lia).
    destruct (six_bits ((n0 - 0xE0) * 64 + c1) c2) as [Hd Hm]; [assumption|].
    rewrite <- Ec in Hd, Hm.
    destruct (six_bits (n0 - 0xE0) c1) as [Hd' Hm']; [assumption|].
    assert (Hq : c / 4096 = n0 - 0xE0).
    { change 4096 with (64 * 64). now rewrite <- N.Div0.div_div, Hd, Hd'. }
    unfold encode_point.
    destruct (N.ltb_spec c 0x80); [lia|].
    destruct (N.ltb_spec c 0x800); [lia|].
    destruct (N.ltb_spec c 0x10000); [|unfold c in *; lia].
    rewrite Hs, Hq, Hd, Hm, Hm'.
    replace (0xE0 + (n0 - 0xE0)) with n0 by lia.
    rewrite <- E1, <- E2. unfold n0. now rewrite !byte_of_to_N. }
  destruct (N.ltb_spec n0 0xF8) as [Hr5|Hr5]; [|discriminate].
  (* four bytes *)
  destruct r0 as [|b1 [|b2 [|b3 r3]]]; try discriminate.
  destruct (continuation b1) as [c1|] eqn:E1; [|discriminate].
  destruct (continuation b2) as [c2|] eqn:E2; [|discriminate].
  destruct (continuation b3) as [c3|] eqn:E3; [|discriminate].
  bytes_back.
  set (c := (n0 - 0xF0) * 262144 + c1 * 4096 + c2 * 64 + c3).
  destruct (N.ltb_spec c 0x10000) as [Hmin|Hmin]; [discriminate|].
  destruct (N.ltb_spec 0x10FFFF c) as [Hmax|Hmax]; [discriminate|]. cbn [orb].
  destruct (utf_8_decode r3) as [t'|] eqn:Er; [|discriminate].
  intros [= <-]. exists c, [b0; b1; b2; b3], r3, t'.
  repeat split; try discriminate; auto.
  assert (Ec : c = (((n0 - 0xF0) * 64 + c1) * 64 + c2) * 64 + c3)
    by (unfold c; lia).
  destruct (six_bits (((n0 - 0xF0) * 64 + c1) * 64 + c2) c3) as [Hd Hm];
    [assumption|].
  rewrite <- Ec in Hd, Hm.
  destruct (six_bits ((n0 - 0xF0) * 64 + c1) c2) as [Hd' Hm']; [assumption|].
  destruct (six_bits (n0 - 0xF0) c1) as [Hd'' Hm'']; [assumption|].
  assert (Hq : c / 4096 = (n0 - 0xF0) * 64 + c1).
  { change 4096 with (64 * 64). now rewrite <- N.Div0.div_div, Hd, Hd'. }
  assert (Hq' : c / 262144 = n0 - 0xF0).
  { change 262144 with (4096 * 64). now rewrite <- N.Div0.div_div, Hq, Hd''. }
  unfold encode_point.
  destruct (N.ltb_spec c 0x80); [lia|].
  destruct (N.ltb_spec c 0x800); [lia|].
  destruct (N.ltb_spec c 0x10000); [lia|].
  destruct (N.ltb_spec c 0x110000); [|lia].
  rewrite Hq', Hq, Hd, Hm, Hm', Hm''.
  replace (0xF0 + (n0 - 0xF0)) with n0 by lia.
  rewrite <- E1, <- E2, <- E3. unfold n0. now rewrite !byte_of_to_N.
Qed.

(** Encoding what was decoded gives the bytes back: strict UTF-8 has one
    form per text. *)
Lemma utf_8_decode_encode (bs : bytes) (t : text) :
  utf_8_decode bs = Some t -> utf_8_encode t = Some bs.
Proof.
  remember (List.length bs) as n eqn:Hn. revert bs t Hn.
  induction n as [n IH] using lt_wf_ind. intros bs t Hn H.
  destruct bs as [|b0 r0].
  - injection H as <-. reflexivity.
  - apply utf_8_decode_cons in H
      as (c & seq & rest & t' & Esplit & Hseq & -> & Hrest & Hc).
    cbn [utf_8_encode]. rewrite Hc.
    rewrite (IH (List.length rest)) with (bs := rest) (t := t'); auto.
    + now rewrite Esplit.
    + subst n. rewrite Esplit, length_app.
      destruct seq; [contradiction|cbn [List.length]; lia].
Qed.

Lemma encode_point_scalar (c : N) :
  (exists seq, encode_point c = Some seq) <-> is_scalar c = true.
Proof.
  unfold encode_point, is_scalar.
  destruct (N.ltb_spec c 0x80), (N.ltb_spec c 0x800),
    (N.ltb_spec c 0x10000), (N.ltb_spec c 0x110000); try lia;
    cbn [andb];
    try (destruct (is_surrogate c) eqn:Hs; cbn [negb]);
    split; try (now intros [seq [=]]); try discriminate; try (intros _; eauto);
    unfold is_surrogate in Hs;
    destruct (N.leb_spec 0xD800 c), (N.leb_spec c 0xDFFF);
    cbn [andb] in Hs; try discriminate; lia.
Qed.

(** Encoding succeeds exactly on texts of scalar values. *)
Lemma utf_8_encode_scalar (t : text) :
  (exists bs, utf_8_encode t = Some bs) <-> forallb is_scalar t = true.
Proof.
  induction t as [|c t IH]; cbn [utf_8_encode forallb].
  - split; eauto.
  - rewrite andb_true_iff, <- IH, <- encode_point_scalar.
    destruct (encode_point c), (utf_8_encode t); split;
      try (intros [bs [=]]); try (intros [[? [=]] [? [=]]]); eauto.
Qed.

(** Decoded text consists of scalar values. *)
Lemma utf_8_decode_scalar (bs : bytes) (t : text) :
  utf_8_decode bs = Some t -> forallb is_scalar t = true.
Proof.
  intros H. apply utf_8_encode_scalar. exists bs.
  now apply utf_8_decode_encode.
Qed.

(** *** Decoding what was encoded *)

Lemma to_N_byte_of_N (n : N) : n < 256 -> Byte.to_N (byte_of_N n) = n.
Proof.
  intros Hn. unfold byte_of_N. destruct (Byte.of_N n) as [b|] eqn:E.
  - now apply Byte.to_of_N.
  - apply Byte.of_N_None_iff in E. lia.
Qed.

Lemma continuation_byte (x : N) :
  x < 64 -> continuation (byte_of_N (0x80 + x)) = Some x.
Proof.
  intros Hx. unfold continuation. rewrite to_N_byte_of_N by lia.
  destruct (N.leb_spec 0x80 (0x80 + x)), (N.leb_spec (0x80 + x) 0xBF);
    try lia.
  cbn [andb]. f_equal. lia.
Qed.

Lemma some_inj {A : Type} (a b : A) : Some a = Some b -> a = b.
Proof. congruence. Qed.

(** The quotient and the six low bits of a number. *)
Lemma split_six (c : N) : c = 64 * (c / 64) + c mod 64 /\ c mod 64 < 64.
Proof.
  split; [apply N.div_mod; discriminate|apply N.mod_lt; discriminate].
Qed.

(** The UTF-8 form of a character decodes to that character. *)
Lemma utf_8_decode_point (c : N) (seq rest : bytes) :
  encode_point c = Some seq ->
  utf_8_decode (seq ++ rest) = option_map (cons c) (utf_8_decode rest).
Proof.
  unfold encode_point.
  destruct (split_six c) as [E0 B0].
  destruct (split_six (c / 64)) as [E1 B1].
  destruct (split_six (c / 64 / 64)) as [E2 B2].
  assert (Q1 : c / 4096 = c / 64 / 64)
    by (change 4096 with (64 * 64); now rewrite N.Div0.div_div).
  assert (Q2 : c / 262144 = c / 64 / 64 / 64)
    by (change 262144 with (64 * 64 * 64); now rewrite !N.Div0.div_div).
  rewrite Q2, Q1. clear Q1 Q2.
  set (m0 := c mod 64) in *. set (q0 := c / 64) in *.
  set (m1 := q0 mod 64) in *. set (q1 := q0 / 64) in *.
  set (m2 := q1 mod 64) in *. set (q2 := q1 / 64) in *.
  clearbody m0 q0 m1 q1 m2 q2.
  destruct (N.ltb_spec c 0x80) as [R1|R1].
  { intros H; apply some_inj in H; subst seq.
    cbn [app utf_8_decode]. cbv zeta.
    rewrite to_N_byte_of_N by lia.
    destruct (N.ltb_spec c 0x80); [reflexivity|lia]. }
  destruct (N.ltb_spec c 0x800) as [R2|R2].
  { intros H; apply some_inj in H; subst seq.
    cbn [app utf_8_decode]. cbv zeta.
    rewrite to_N_byte_of_N by lia.
    destruct (N.ltb_spec (0xC0 + q0) 0x80); [lia|].
    destruct (N.ltb_spec (0xC0 + q0) 0xC0); [lia|].
    destruct (N.ltb_spec (0xC0 + q0) 0xE0); [|lia].
    rewrite continuation_byte by assumption.
    replace ((0xC0 + q0 - 0xC0) * 64 + m0) with c by lia.
    destruct (N.ltb_spec c 0x80); [lia|reflexivity]. }
  destruct (N.ltb_spec c 0x10000) as [R3|R3].
  { destruct (is_surrogate c) eqn:Hs; [discriminate|].
    intros H; apply some_inj in H; subst seq.
    cbn [app utf_8_decode]. cbv zeta.
    rewrite to_N_byte_of_N by lia.
    destruct (N.ltb_spec (0xE0 + q1) 0x80); [lia|].
    destruct (N.ltb_spec (0xE0 + q1) 0xC0); [lia|].
    destruct (N.ltb_spec (0xE0 + q1) 0xE0); [lia|].
    destruct (N.ltb_spec (0xE0 + q1) 0xF0); [|lia].
    rewrite !continuation_byte by assumption.
    replace ((0xE0 + q1 - 0xE0) * 4096 + m1 * 64 + m0) with c by lia.
    rewrite Hs. destruct (N.ltb_spec c 0x800); [lia|reflexivity]. }
  destruct (N.ltb_spec c 0x110000) as [R4|R4]; [|discriminate].
  intros H; apply some_inj in H; subst seq.
    cbn [app utf_8_decode]. cbv zeta.
  rewrite to_N_byte_of_N by lia.
  destruct (N.ltb_spec (0xF0 + q2) 0x80); [lia|].
  destruct (N.ltb_spec (0xF0 + q2) 0xC0); [lia|].
  destruct (N.ltb_spec (0xF0 + q2) 0xE0); [lia|].
  destruct (N.ltb_spec (0xF0 + q2) 0xF0); [lia|].
  destruct (N.ltb_spec (0xF0 + q2) 0xF8); [|lia].
  rewrite !continuation_byte by assumption.
  replace ((0xF0 + q2 - 0xF0) * 262144 + m2 * 4096 + m1 * 64 + m0)
    with c by lia.
  destruct (N.ltb_spec c 0x10000); [lia|].
  destruct (N.ltb_spec 0x10FFFF c); [lia|reflexivity].
Qed.

Lemma utf_8_encode_decode (t : text) (bs : bytes) :
  utf_8_encode t = Some bs -> utf_8_decode bs = Some t.
Proof.
  revert bs; induction t as [|c t IH]; intros bs; cbn [utf_8_encode].
  - now intros [= <-].
  - destruct (encode_point c) as [seq|] eqn:Ec; [|discriminate].
    destruct (utf_8_encode t) as [rest|]; [|discriminate].
    intros [= <-]. rewrite (utf_8_decode_point c seq rest Ec).
    now rewrite (IH rest eq_refl).
Qed.

Lemma utf_8_encode_app (a b : text) :
  utf_8_encode (a ++ b) =
  match utf_8_encode a, utf_8_encode b with
  | Some x, Some y => Some (x ++ y)
  | _, _ => None
  end.
Proof.
  induction a as [|c a IH]; cbn [app utf_8_encode].
  - now destruct (utf_8_encode b).
  - rewrite IH. destruct (encode_point c), (utf_8_encode a), (utf_8_encode b);
      try reflexivity. now rewrite app_assoc.
Qed.

End CodecFacts.

(** ** Newline translation *)

Module TextIOFacts.

Import StrFacts.

(** Replacing a one-character block works character by character. *)
Lemma replace_single (c : N) (sep s : text) :
  replace s [c] sep = flat_map (fun d => if d =? c then sep else [d]) s.
Proof.
  assert (Hne : [c] <> []) by discriminate.
  induction s as [|d s IH].
  - now apply replace_nil.
  - cbn [flat_map]. destruct (N.eqb_spec d c) as [->|Hdc].
    + change (c :: s) with ([c] ++ s). rewrite replace_hit by exact Hne.
      now rewrite IH.
    + rewrite replace_miss; [now rewrite IH|exact Hne|].
      cbn [startswith]. destruct (N.eqb_spec c d); [congruence|reflexivity].
Qed.

Lemma translate_write_chars (p : platform) (s : text) :
  translate_write p s = flat_map (write_char p) s.
Proof.
  destruct p; unfold translate_write; cbn [writenl write_char].
  - induction s as [|c s IH]; simpl; [reflexivity|now rewrite <- IH].
  - apply replace_single.
Qed.

Lemma translate_write_app (p : platform) (a b : text) :
  translate_write p (a ++ b) = translate_write p a ++ translate_write p b.
Proof. rewrite !translate_write_chars. apply flat_map_app. Qed.

(** Induction along [translate_read]: one character, or a ["\r\n"] pair, at
    a time. *)
Lemma translate_read_ind (P : text -> text -> Prop) :
  P [] [] ->
  P [CR] [LF] ->
  (forall r, P r (translate_read r) ->
             P (CR :: LF :: r) (LF :: translate_read r)) ->
  (forall d r, d <> LF -> P (d :: r) (translate_read (d :: r)) ->
             P (CR :: d :: r) (LF :: translate_read (d :: r))) ->
  (forall c r, c <> CR -> P r (translate_read r) ->
             P (c :: r) (c :: translate_read r)) ->
  forall s, P s (translate_read s).
Proof.
  intros Hnil Hcr Hcrlf Hlone Hcopy s.
  remember (List.length s) as n eqn:Hn. revert s Hn.
  induction n as [n IH] using lt_wf_ind. intros s Hn.
  destruct s as [|c r]; [exact Hnil|].
  cbn [translate_read]. destruct (N.eqb_spec c CR) as [->|Hc].
  - destruct r as [|d r']; [exact Hcr|].
    destruct (N.eqb_spec d LF) as [->|Hd].
    + apply Hcrlf. apply (IH (List.length r')); [|reflexivity].
      subst n. cbn [List.length]. lia.
    + apply Hlone; [exact Hd|].
      apply (IH (List.length (d :: r'))); [|reflexivity].
      subst n. cbn [List.length]. lia.
  - apply Hcopy; [exact Hc|].
    apply (IH (List.length r)); [|reflexivity].
    subst n. cbn [List.length]. lia.
Qed.

(** Text that was read holds no ["\r"]. *)
Lemma translate_read_no_CR (s : text) :
  existsb (N.eqb CR) (translate_read s) = false.
Proof.
  apply (translate_read_ind
    (fun _ r => existsb (N.eqb CR) r = false)); try reflexivity.
  - intros r IH. exact IH.
  - intros d r _ IH. exact IH.
  - intros c r Hc IH. cbn [existsb]. rewrite IH.
  destruct (N.eqb_spec CR c); [congruence|reflexivity].
Qed.

Lemma translate_read_without_CR (t : text) :
  existsb (N.eqb CR) t = false -> translate_read t = t.
Proof.
  induction t as [|c t IH]; [reflexivity|].
  cbn [existsb translate_read]. intros H.
  apply orb_false_iff in H as [Hc Ht].
  rewrite N.eqb_sym, Hc. now rewrite IH.
Qed.

(** Writing what was read gives the text back when its line breaks are the
    platform's. *)
Lemma translate_write_read (p : platform) (t : text) :
  native_newlines p t = true ->
  translate_write p (translate_read t) = t.
Proof.
  destruct p; cbn [native_newlines]; intros H.
  - apply negb_true_iff in H. now rewrite translate_read_without_CR.
  - rewrite translate_write_chars. revert H.
    apply (translate_read_ind
      (fun t r => crlf_only t = true -> flat_map (write_char Windows) r = t)).
    + reflexivity.
    + discriminate.
    + intros r IH H. cbn [crlf_only] in H.
      rewrite N.eqb_refl in H. cbn [andb] in H.
      cbn [flat_map write_char]. rewrite N.eqb_refl, IH by exact H.
      reflexivity.
    + intros d r Hd _ H. cbn [crlf_only] in H.
      destruct (N.eqb_spec d LF); [contradiction|discriminate].
    + intros c r Hc IH H. cbn [crlf_only] in H.
      destruct (N.eqb_spec c CR); [contradiction|].
      apply andb_true_iff in H as [Hlf H]. apply negb_true_iff in Hlf.
      cbn [flat_map write_char]. rewrite Hlf, IH by exact H. reflexivity.
Qed.

(** Reading back what was written gives the text back when it holds no
    ["\r"]. *)
Lemma translate_read_write (p : platform) (s : text) :
  existsb (N.eqb CR) s = false ->
  translate_read (translate_write p s) = s.
Proof.
  rewrite translate_write_chars.
  induction s as [|c s IH]; [reflexivity|].
  cbn [existsb flat_map]. intros H.
  apply orb_false_iff in H as [Hc Hs]. specialize (IH Hs).
  destruct p; cbn [write_char].
  - cbn [app translate_read]. now rewrite N.eqb_sym, Hc, IH.
  - destruct (N.eqb_spec c LF) as [->|Hlf].
    + cbn [app translate_read]. now rewrite IH.
    + cbn [app translate_read]. now rewrite N.eqb_sym, Hc, IH.
Qed.

(** *** Scalar values stay scalar values *)

Lemma forallb_replace (P : N -> bool) (s old new : text) :
  forallb P s = true -> forallb P new = true ->
  forallb P (replace s old new) = true.
Proof.
  intros Hs Hnew. unfold replace. destruct old as [|a o].
  - rewrite forallb_app, Hnew. cbn [andb].
    induction s as [|c s IH]; [reflexivity|].
    cbn [forallb] in Hs. apply andb_true_iff in Hs as [Hc Hs].
    cbn [flat_map app forallb]. now rewrite Hc, forallb_app, Hnew, IH.
  - generalize 0%nat as k. induction s as [|c s IH]; intros k; [reflexivity|].
    cbn [forallb] in Hs. apply andb_true_iff in Hs as [Hc Hs].
    cbn [replace_scan]. destruct k as [|k]; [|now apply IH].
    destruct (startswith (c :: s) (a :: o)).
    + rewrite forallb_app, Hnew. now apply IH.
    + cbn [forallb]. rewrite Hc. now apply IH.
Qed.

Lemma forallb_translate_read (s : text) :
  forallb is_scalar s = true -> forallb is_scalar (translate_read s) = true.
Proof.
  apply (translate_read_ind
    (fun s r => forallb is_scalar s = true -> forallb is_scalar r = true)).
  - reflexivity.
  - reflexivity.
  - intros r IH H. cbn [forallb] in H |- *.
    apply andb_true_iff in H as [_ H]. apply andb_true_iff in H as [_ H].
    now rewrite IH.
  - intros d r _ IH H. cbn [forallb] in H.
    apply andb_true_iff in H as [_ H].
    change (forallb is_scalar (LF :: translate_read (d :: r)))
      with (is_scalar LF && forallb is_scalar (translate_read (d :: r))).
    now rewrite IH.
  - intros c r _ IH H. cbn [forallb] in H |- *.
    apply andb_true_iff in H as [Hc H]. now rewrite Hc, IH.
Qed.

Lemma forallb_translate_write (p : platform) (s : text) :
  forallb is_scalar s = true ->
  forallb is_scalar (translate_write p s) = true.
Proof.
  destruct p; unfold translate_write; cbn [writenl]; [auto|].
  intros H. now apply forallb_replace.
Qed.

End TextIOFacts.

(** ** The script as a whole *)

Module MainFacts.

Import StrFacts CodecFacts TextIOFacts.

Lemma existsb_no_CR (s : text) :
  existsb (N.eqb CR) s = false <-> forallb no_CR s = true.
Proof.
  induction s as [|c s IH]; cbn [existsb forallb]; [easy|].
  unfold no_CR at 1. rewrite orb_false_iff, andb_true_iff, negb_true_iff.
  now rewrite IH.
Qed.

Lemma patch_rules (T : text) :
  patch T = fold_left (fun s r => replace s (fst r) (snd r)) rules T.
Proof. reflexivity. Qed.

Lemma patch_scalar (T : text) :
  forallb is_scalar T = true -> forallb is_scalar (patch T) = true.
Proof.
  intros H. unfold patch.
  apply forallb_replace; [apply forallb_replace|]; auto;
    vm_compute; reflexivity.
Qed.

Lemma patch_no_CR (T : text) :
  existsb (N.eqb CR) T = false -> existsb (N.eqb CR) (patch T) = false.
Proof.
  rewrite !existsb_no_CR. intros H. unfold patch.
  apply forallb_replace; [apply forallb_replace|]; auto;
    vm_compute; reflexivity.
Qed.

Lemma utf_8_sig_decode_scalar (data : bytes) (t : text) :
  utf_8_sig_decode data = Some t -> forallb is_scalar t = true.
Proof.
  unfold utf_8_sig_decode.
  destruct (List.length data <? 3)%nat.
  - destruct (bytes_startswith BOM_UTF8 data).
    + now intros [= <-].
    + apply utf_8_decode_scalar.
  - destruct (bytes_startswith data BOM_UTF8); apply utf_8_decode_scalar.
Qed.

Lemma utf_8_sig_decode_BOM (body : bytes) :
  utf_8_sig_decode (BOM_UTF8 ++ body) = utf_8_decode body.
Proof.
  unfold utf_8_sig_decode, BOM_UTF8. cbn [app List.length Nat.ltb Nat.leb].
  cbn [bytes_startswith skipn]. now destruct body.
Qed.

Lemma file_text_scalar (w : world) (T : text) :
  file_text w = Some T -> forallb is_scalar T = true.
Proof.
  unfold file_text. destruct (disk w) as [data|]; [|discriminate].
  destruct (utf_8_sig_decode data) as [t|] eqn:E; [|discriminate].
  intros [= <-]. apply forallb_translate_read.
  now apply utf_8_sig_decode_scalar in E.
Qed.

Lemma file_text_no_CR (w : world) (T : text) :
  file_text w = Some T -> existsb (N.eqb CR) T = false.
Proof.
  unfold file_text. destruct (disk w) as [data|]; [|discriminate].
  destruct (utf_8_sig_decode data) as [t|]; [|discriminate].
  intros [= <-]. apply translate_read_no_CR.
Qed.

Lemma log_three (l : list fs_event) (a b c : fs_event) :
  ((l ++ [a]) ++ [b]) ++ [c] = l ++ [a; b; c].
Proof. now rewrite <- !app_assoc. Qed.

(** What a run does when the file is there, may be read and written, and
    decodes to [T]. *)
Lemma main_run (p : platform) (w : world) (T : text) :
  readable w = true -> writable w = true -> file_text w = Some T ->
  exists body,
    utf_8_encode (translate_write p (patch T)) = Some body /\
    main p w =
      (World (Some (BOM_UTF8 ++ body)) true true
         (stdout w ++ [confirmation])
         (fs_log w ++ [OpenedForReading; OpenedForWriting;
                       Wrote (BOM_UTF8 ++ body)]),
       inr tt).
Proof.
  intros Hr Hw HT.
  pose proof (file_text_scalar w T HT) as Hs.
  apply patch_scalar, (forallb_translate_write p) in Hs.
  apply utf_8_encode_scalar in Hs as [body Hbody].
  exists body. split; [exact Hbody|].
  unfold file_text in HT. destruct (disk w) as [data|] eqn:Hd; [|discriminate].
  destruct (utf_8_sig_decode data) as [t|] eqn:Et; [|discriminate].
  injection HT as <-.
  unfold main, bind, open_for_reading. rewrite Hd, Hr.
  unfold decode_text. rewrite Et. unfold ret.
  unfold open_for_writing. cbn [writable log set_disk]. rewrite Hw.
  unfold write_text, utf_8_sig_encode.
  change (replace (replace (translate_read t) old_notif new_notif)
            old_close new_close) with (patch (translate_read t)).
  rewrite Hbody. cbn [option_map]. unfold print, emit, log, set_disk.
  cbn [disk readable writable stdout fs_log].
  now rewrite Hr, Hw, log_three.
Qed.

(** After such a run the file reads back as the patched text. *)
Lemma main_file_text (p : platform) (w : world) (T : text) :
  readable w = true -> writable w = true -> file_text w = Some T ->
  file_text (fst (main p w)) = Some (patch T).
Proof.
  intros Hr Hw HT.
  destruct (main_run p w T Hr Hw HT) as (body & Hbody & ->).
  cbn [fst]. unfold file_text. cbn [disk].
  rewrite utf_8_sig_decode_BOM, (utf_8_encode_decode _ _ Hbody).
  cbn [option_map]. f_equal. apply translate_read_write.
  apply patch_no_CR. now apply file_text_no_CR in HT.
Qed.

End MainFacts.

(** ** Facts about the four literals, by evaluation *)

Module Literals.

Ltac evaluate := vm_compute; reflexivity.

Lemma old_notif_nonempty : old_notif <> [].
Proof. discriminate. Qed.

Lemma new_notif_nonempty : new_notif <> [].
Proof. discriminate. Qed.

Lemma old_close_nonempty : old_close <> [].
Proof. discriminate. Qed.

Lemma notif_rule_apart : overlap old_notif new_notif = false.
Proof. evaluate. Qed.

Lemma close_rule_apart : overlap old_close new_close = false.
Proof. evaluate. Qed.

Lemma old_notif_new_close_apart : overlap old_notif new_close = false.
Proof. evaluate. Qed.

Lemma new_notif_old_close_apart : overlap new_notif old_close = false.
Proof. evaluate. Qed.

Lemma old_close_old_notif_apart : overlap old_close old_notif = false.
Proof. evaluate. Qed.

Lemma old_notif_unbordered : self_border old_notif = false.
Proof. evaluate. Qed.

Lemma old_close_unbordered : self_border old_close = false.
Proof. evaluate. Qed.

End Literals.

(** ** The properties of the patch *)

Import StrFacts CodecFacts TextIOFacts MainFacts Literals.

Lemma contains_trans (s b x : text) :
  contains s b = true -> contains b x = true -> contains s x = true.
Proof.
  intros Hb Hx.
  apply contains_inv in Hb as (u & v & ->).
  apply contains_inv in Hx as (u' & v' & ->).
  replace (u ++ (u' ++ x ++ v') ++ v) with ((u ++ u') ++ x ++ (v' ++ v))
    by now rewrite <- !app_assoc.
  apply contains_intro.
Qed.

Lemma patch_absent (T : text) :
  contains T old_notif = false -> contains T old_close = false ->
  patch T = T.
Proof.
  intros Hn Hc. unfold patch.
  rewrite (replace_absent _ _ old_notif_nonempty T Hn).
  exact (replace_absent _ _ old_close_nonempty T Hc).
Qed.

Lemma patch_leaves_no_old_notif (T : text) :
  contains (patch T) old_notif = false.
Proof.
  destruct (contains (patch T) old_notif) eqn:E; [|reflexivity].
  unfold patch in E.
  apply (replace_contains_back _ _ old_close_nonempty _ old_notif_nonempty)
    in E; [|exact old_notif_new_close_apart].
  now rewrite (replace_leaves_none _ _ old_notif_nonempty _ notif_rule_apart)
    in E.
Qed.

Lemma patch_leaves_no_old_close (T : text) :
  contains (patch T) old_close = false.
Proof.
  exact (replace_leaves_none _ _ old_close_nonempty _ close_rule_apart).
Qed.

(** C1, as stated, fails: a file without either pattern is opened for
    writing and overwritten all the same.  The file [abc] holds neither
    pattern; the run truncates it and writes the BOM and [abc], so its bytes
    change. *)
Lemma unmatched_file_is_written :
  file_text (fresh abc) = Some (txt "abc") /\
  contains (txt "abc") old_notif = false /\
  contains (txt "abc") old_close = false /\
  fs_log (fst (main Posix (fresh abc)))
    = [OpenedForReading; OpenedForWriting; Wrote (BOM_UTF8 ++ abc)] /\
  disk (fst (main Posix (fresh abc))) = Some (BOM_UTF8 ++ abc) /\
  fs_log (fst (main Windows (fresh abc)))
    = [OpenedForReading; OpenedForWriting; Wrote (BOM_UTF8 ++ abc)] /\
  disk (fst (main Windows (fresh abc))) <> disk (fresh abc).
Proof.
  repeat split; try (vm_compute; reflexivity).
  vm_compute. discriminate.
Qed.

(** C1, amended: if neither pattern occurs in the text [T] of the file, the
    patched text equals [T] exactly; and the write does not depend on a
    match: on every run in which the file is read and decoded and can be
    written, the file is opened for writing and overwritten, whether or not
    a pattern was found, with the BOM and the UTF-8 bytes of the patched
    text, its line feeds written as [os.linesep]. *)
Theorem write_is_unconditional (p : platform) (w : world) (T : text) :
  readable w = true -> writable w = true -> file_text w = Some T ->
  (contains T old_notif = false -> contains T old_close = false ->
   patch T = T) /\
  exists data,
    utf_8_sig_encode (translate_write p (patch T)) = Some data /\
    fs_log (fst (main p w))
      = fs_log w ++ [OpenedForReading; OpenedForWriting; Wrote data] /\
    disk (fst (main p w)) = Some data.
Proof.
  intros Hr Hw HT. split; [apply patch_absent|].
  destruct (main_run p w T Hr Hw HT) as (body & Hbody & ->).
  exists (BOM_UTF8 ++ body). unfold utf_8_sig_encode. rewrite Hbody.
  repeat split.
Qed.

Lemma write_is_unconditional_witness :
  readable (fresh abc) = true /\ writable (fresh abc) = true /\
  file_text (fresh abc) = Some (txt "abc") /\
  ((contains (txt "abc") old_notif = false ->
    contains (txt "abc") old_close = false -> patch (txt "abc") = txt "abc") /\
   exists data,
     utf_8_sig_encode (translate_write Posix (patch (txt "abc"))) = Some data /\
     fs_log (fst (main Posix (fresh abc)))
       = fs_log (fresh abc) ++ [OpenedForReading; OpenedForWriting; Wrote data] /\
     disk (fst (main Posix (fresh abc))) = Some data).
Proof.
  split; [reflexivity|]. split; [reflexivity|]. split; [vm_compute; reflexivity|].
  apply (write_is_unconditional Posix (fresh abc) (txt "abc"));
    vm_compute; reflexivity.
Defined.

(** C2: the patch is idempotent.  For every text [T], applying the two
    rules to the patched text gives the patched text again; and neither
    pattern occurs in a text once its rule has been applied, nor in the
    patched text. *)
Theorem patch_idempotent (T : text) :
  let once := replace (replace T old_notif new_notif) old_close new_close in
  replace (replace once old_notif new_notif) old_close new_close = once /\
  contains (replace T old_notif new_notif) old_notif = false /\
  contains (replace T old_close new_close) old_close = false /\
  contains once old_notif = false /\
  contains once old_close = false.
Proof.
  intros once. change once with (patch T). split; [|repeat split].
  - apply patch_absent;
      [apply patch_leaves_no_old_notif|apply patch_leaves_no_old_close].
  - exact (replace_leaves_none _ _ old_notif_nonempty _ notif_rule_apart).
  - exact (replace_leaves_none _ _ old_close_nonempty _ close_rule_apart).
  - apply patch_leaves_no_old_notif.
  - apply patch_leaves_no_old_close.
Qed.

(** C6: each rule replaces every occurrence of its pattern, not only the
    first.  Wherever the pattern occurs in a text, between any [x] and [y],
    the result has the replacement at that place, between the results for
    [x] and for [y]; and no occurrence of the pattern is left. *)
Theorem every_occurrence_replaced (x y : text) :
  replace (x ++ old_notif ++ y) old_notif new_notif
    = replace x old_notif new_notif ++ new_notif
      ++ replace y old_notif new_notif /\
  replace (x ++ old_close ++ y) old_close new_close
    = replace x old_close new_close ++ new_close
      ++ replace y old_close new_close /\
  contains (replace (x ++ old_notif ++ y) old_notif new_notif) old_notif
    = false /\
  contains (replace (x ++ old_close ++ y) old_close new_close) old_close
    = false.
Proof.
  repeat split.
  - exact (replace_occurrence _ _ old_notif_nonempty x y old_notif_unbordered).
  - exact (replace_occurrence _ _ old_close_nonempty x y old_close_unbordered).
  - exact (replace_leaves_none _ _ old_notif_nonempty _ notif_rule_apart).
  - exact (replace_leaves_none _ _ old_close_nonempty _ close_rule_apart).
Qed.

(** C8: a pattern that is not found is no error.  Whenever the file is
    there, may be read and written, and decodes, the run ends normally,
    whatever the text and whether or not a pattern occurs in it, and prints
    the one line [ViewModel updated successfully]. *)
Theorem run_succeeds (p : platform) (w : world) (T : text) :
  readable w = true -> writable w = true -> file_text w = Some T ->
  snd (main p w) = inr tt /\
  stdout (fst (main p w)) = stdout w ++ [confirmation].
Proof.
  intros Hr Hw HT.
  destruct (main_run p w T Hr Hw HT) as (body & _ & ->). now split.
Qed.

Lemma run_succeeds_witness :
  readable (fresh abc) = true /\ writable (fresh abc) = true /\
  file_text (fresh abc) = Some (txt "abc") /\
  snd (main Windows (fresh abc)) = inr tt /\
  stdout (fst (main Windows (fresh abc)))
    = stdout (fresh abc) ++ [confirmation].
Proof.
  split; [reflexivity|]. split; [reflexivity|]. split; [vm_compute; reflexivity|].
  apply (run_succeeds Windows (fresh abc) (txt "abc"));
    vm_compute; reflexivity.
Defined.

Lemma contains_length (s p : text) :
  contains s p = true -> (List.length p <= List.length s)%nat.
Proof.
  intros H. apply contains_inv in H as (u & v & ->).
  rewrite !length_app. lia.
Qed.

Lemma one_char_off_absent (p b : text) :
  one_char_off p b -> contains b p = false.
Proof.
  intros H. destruct (contains b p) eqn:E; [exfalso|reflexivity].
  destruct H as [l c c' r Hp Hc|l c r Hp].
  - apply contains_inv in E as (u & v & E).
    assert (Hlen : List.length (l ++ c' :: r) = List.length (u ++ p ++ v))
      by now rewrite E.
    rewrite Hp in Hlen. repeat rewrite length_app in Hlen.
    cbn [List.length] in Hlen.
    assert (Hu : List.length u = 0%nat) by lia.
    assert (Hv : List.length v = 0%nat) by lia.
    apply length_zero_iff_nil in Hu, Hv. subst u v.
    cbn [app] in E. rewrite app_nil_r, Hp in E.
    apply app_inv_head in E. congruence.
  - apply contains_length in E. rewrite Hp in E.
    repeat rewrite length_app in E. cbn [List.length] in E. lia.
Qed.

(** C3, as stated, fails: the [Delete] entry alone is not what the first
    rule looks for.  A file that holds exactly the entry the scenario quotes
    reads back unchanged after the run, with no new [Delete] entry and no
    [CopyPath] entry. *)
Lemma delete_entry_alone_unchanged :
  file_text (fresh (bytes_of old_delete_entry)) = Some old_delete_entry /\
  file_text (fst (main Posix (fresh (bytes_of old_delete_entry))))
    = Some old_delete_entry /\
  file_text (fst (main Windows (fresh (bytes_of old_delete_entry))))
    = Some old_delete_entry /\
  contains old_delete_entry new_delete_entry = false /\
  contains old_delete_entry (txt "CopyPath") = false.
Proof. repeat split; vm_compute; reflexivity. Qed.

(** C3, amended: for an input file whose text contains the whole block
    [old_notif] (the six lines of the [switch], spaces and line breaks as
    in the script), the file after the run contains [new_notif]: it holds
    the new [Delete] entry and, right before its line, the added lines for
    [CopyPath], [CopyName], [Compress] and [SendByEmail] in that order,
    none of which the old block held. *)
Theorem notif_block_patched (p : platform) (w : world) (T : text) :
  readable w = true -> writable w = true -> file_text w = Some T ->
  contains T old_notif = true ->
  exists T',
    file_text (fst (main p w)) = Some T' /\
    contains T' new_notif = true /\
    contains T' new_delete_entry = true /\
    contains T' added_then_delete = true /\
    contains old_notif copy_path_line = false /\
    contains old_notif copy_name_line = false /\
    contains old_notif compress_line = false /\
    contains old_notif send_by_email_line = false.
Proof.
  intros Hr Hw HT Hin. exists (patch T).
  split; [now apply main_file_text|].
  assert (Hnew : contains (patch T) new_notif = true).
  { unfold patch.
    apply (replace_keeps _ _ old_close_nonempty _ new_notif_nonempty);
      [exact new_notif_old_close_apart|].
    apply contains_inv in Hin as (u & v & ->).
    rewrite (replace_occurrence _ _ old_notif_nonempty u v
               old_notif_unbordered).
    apply contains_intro. }
  split; [exact Hnew|].
  split; [apply (contains_trans _ _ _ Hnew); evaluate|].
  split; [apply (contains_trans _ _ _ Hnew); evaluate|].
  repeat split; evaluate.
Qed.

Lemma notif_block_patched_witness :
  readable (fresh (bytes_of old_notif)) = true /\
  writable (fresh (bytes_of old_notif)) = true /\
  file_text (fresh (bytes_of old_notif)) = Some old_notif /\
  contains old_notif old_notif = true /\
  exists T',
    file_text (fst (main Windows (fresh (bytes_of old_notif)))) = Some T' /\
    contains T' new_notif = true /\
    contains T' new_delete_entry = true /\
    contains T' added_then_delete = true /\
    contains old_notif copy_path_line = false /\
    contains old_notif copy_name_line = false /\
    contains old_notif compress_line = false /\
    contains old_notif send_by_email_line = false.
Proof.
  split; [reflexivity|]. split; [reflexivity|].
  split; [vm_compute; reflexivity|]. split; [vm_compute; reflexivity|].
  apply (notif_block_patched Windows (fresh (bytes_of old_notif)) old_notif);
    vm_compute; reflexivity.
Defined.

(** C4, as stated, fails: a condition that lists only [Open], [RunAsAdmin]
    and [OpenPrivate] is not enough for the second rule.  With the space at
    the end of the [Open] line trimmed, the block still lists the three
    types only, and the file reads back unchanged after the run: no
    [OpenWith], no [else]. *)
Lemma trimmed_close_block_unchanged :
  file_text (fresh (bytes_of old_close_trimmed)) = Some old_close_trimmed /\
  contains old_close_trimmed
    (txt "if (action.ActionType is FileActionType.Open") = true /\
  contains old_close_trimmed (txt "or FileActionType.RunAsAdmin") = true /\
  contains old_close_trimmed (txt "or FileActionType.OpenPrivate)") = true /\
  file_text (fst (main Posix (fresh (bytes_of old_close_trimmed))))
    = Some old_close_trimmed /\
  file_text (fst (main Windows (fresh (bytes_of old_close_trimmed))))
    = Some old_close_trimmed /\
  contains old_close_trimmed (txt "OpenWith") = false /\
  contains old_close_trimmed (txt "else") = false.
Proof. repeat split; vm_compute; reflexivity. Qed.

(** C4, amended: for an input file whose text contains the whole block
    [old_close] (comment line, condition with its spaces at the line ends,
    body, closing braces and [ShowActionsPanel = false;], as in the
    script), the file after the run contains [new_close]: the condition
    lists [Open], [RunAsAdmin], [OpenPrivate] and then [OpenWith],
    [OpenLocation], [OpenInTerminal], [OpenInExplorer], [OpenInVSCode],
    [EditInEditor], [SendByEmail], and an [else] branch is added that
    raises the notification [VS Code introuvable] when the action type is
    [OpenInVSCode]. *)
Theorem close_block_patched (p : platform) (w : world) (T : text) :
  readable w = true -> writable w = true -> file_text w = Some T ->
  contains T old_close = true ->
  exists T',
    file_text (fst (main p w)) = Some T' /\
    contains T' new_close = true /\
    contains T' new_condition = true /\
    contains T' else_branch = true /\
    contains old_close else_branch = false.
Proof.
  intros Hr Hw HT Hin. exists (patch T).
  split; [now apply main_file_text|].
  assert (Hnew : contains (patch T) new_close = true).
  { unfold patch.
    apply (replace_keeps _ new_notif old_notif_nonempty _ old_close_nonempty)
      in Hin; [|exact old_close_old_notif_apart].
    apply contains_inv in Hin as (u & v & ->).
    rewrite (replace_occurrence _ _ old_close_nonempty u v
               old_close_unbordered).
    apply contains_intro. }
  split; [exact Hnew|].
  split; [apply (contains_trans _ _ _ Hnew); evaluate|].
  split; [apply (contains_trans _ _ _ Hnew); evaluate|].
  evaluate.
Qed.

Lemma close_block_patched_witness :
  readable (fresh (bytes_of old_close)) = true /\
  writable (fresh (bytes_of old_close)) = true /\
  file_text (fresh (bytes_of old_close)) = Some old_close /\
  contains old_close old_close = true /\
  exists T',
    file_text (fst (main Windows (fresh (bytes_of old_close)))) = Some T' /\
    contains T' new_close = true /\
    contains T' new_condition = true /\
    contains T' else_branch = true /\
    contains old_close else_branch = false.
Proof.
  split; [reflexivity|]. split; [reflexivity|].
  split; [vm_compute; reflexivity|]. split; [vm_compute; reflexivity|].
  apply (close_block_patched Windows (fresh (bytes_of old_close)) old_close);
    vm_compute; reflexivity.
Defined.

(** C7, as stated, fails: a block that differs from a pattern by one
    whitespace character can still hold the pattern, or stand next to it.
    The first block with one more space in front of its first line is
    replaced; and a text that holds the first block with its first space
    turned into a tab, and after it the block itself, is changed by the
    rule. *)
Lemma padded_block_is_replaced :
  replace (32 :: old_notif) old_notif new_notif = 32 :: new_notif /\
  contains (32 :: new_notif) (txt "CopyPath") = true /\
  contains (32 :: old_notif) (txt "CopyPath") = false /\
  old_notif = 32 :: tl old_notif /\
  old_notif_tabbed = 9 :: tl old_notif /\
  replace (old_notif_tabbed ++ nl ++ old_notif) old_notif new_notif
    = old_notif_tabbed ++ nl ++ new_notif /\
  contains (old_notif_tabbed ++ nl ++ old_notif) (txt "CopyPath") = false.
Proof. repeat split; vm_compute; reflexivity. Qed.

(** C7, amended: matching is an exact, case- and whitespace-sensitive
    literal substring match.  A rule contributes no change to a text in
    which its pattern does not occur exactly, and changes a text only if the
    pattern occurs in it; in particular a text that is the pattern with one
    character changed into another (a space into a tab, a letter into its
    other case) or with one character left out is not replaced. *)
Theorem exact_match_only (old new T : text) :
  In (old, new) rules ->
  (contains T old = false -> replace T old new = T) /\
  (one_char_off old T -> contains T old = false /\ replace T old new = T) /\
  (replace T old new <> T -> contains T old = true).
Proof.
  intros Hrule.
  assert (Hne : old <> []).
  { destruct Hrule as [[= <- _]|[[= <- _]|[]]]; discriminate. }
  assert (Habs : contains T old = false -> replace T old new = T)
    by apply (replace_absent _ _ Hne).
  split; [exact Habs|]. split.
  - intros Hoff. apply one_char_off_absent in Hoff. auto.
  - intros Hchg. destruct (contains T old); [reflexivity|].
    now contradiction Hchg; apply Habs.
Qed.

Lemma exact_match_only_witness :
  In (old_notif, new_notif) rules /\
  one_char_off old_notif old_notif_tabbed /\
  contains old_notif_tabbed old_notif = false /\
  replace old_notif_tabbed old_notif new_notif = old_notif_tabbed.
Proof.
  assert (Hoff : one_char_off old_notif old_notif_tabbed).
  { apply (changed old_notif [] 32 9 (tl old_notif));
      [reflexivity|discriminate]. }
  split; [left; reflexivity|]. split; [exact Hoff|].
  apply (exact_match_only old_notif new_notif old_notif_tabbed);
    [left; reflexivity|exact Hoff].
Defined.

Lemma byte_eqb_refl (a : byte) : Byte.eqb a a = true.
Proof. now apply Byte.byte_dec_lb. Qed.

Lemma bytes_startswith_app (p r : bytes) : bytes_startswith (p ++ r) p = true.
Proof.
  induction p as [|a p IH]; cbn [app bytes_startswith]; [now destruct r|].
  now rewrite byte_eqb_refl, IH.
Qed.

(** Without a BOM in front, well-formed UTF-8 is read by [utf-8-sig] as by
    plain UTF-8. *)
Lemma utf_8_sig_decode_plain (data : bytes) (t : text) :
  bytes_startswith data BOM_UTF8 = false ->
  utf_8_decode data = Some t ->
  utf_8_sig_decode data = Some t.
Proof.
  intros Hbom Hdec. unfold utf_8_sig_decode. rewrite Hbom.
  destruct (List.length data <? 3)%nat eqn:Hlen; [|exact Hdec].
  destruct (bytes_startswith BOM_UTF8 data) eqn:Hpre; [|exact Hdec].
  destruct data as [|b0 [|b1 [|b2 r]]]; [exact Hdec| | |discriminate].
  - cbn [BOM_UTF8 bytes_startswith] in Hpre. rewrite andb_true_r in Hpre.
    apply Byte.byte_dec_bl in Hpre. subst b0. discriminate.
  - cbn [BOM_UTF8 bytes_startswith] in Hpre. rewrite andb_true_r in Hpre.
    apply andb_true_iff in Hpre as [H0 H1].
    apply Byte.byte_dec_bl in H0, H1. subst b0 b1. discriminate.
Qed.

(** C9, as stated, fails: the line breaks are not kept.  A file that begins
    with a BOM, holds neither pattern and has a lone carriage return comes
    back with a line feed where [os.linesep] is a line feed, and with
    carriage return and line feed on Windows; a file with line feeds is
    rewritten on Windows, and one with carriage return and line feed
    elsewhere. *)
Lemma line_breaks_not_preserved :
  file_text (fresh a_CR_b) = Some [97; 10; 98] /\
  contains [97; 10; 98] old_notif = false /\
  contains [97; 10; 98] old_close = false /\
  disk (fst (main Posix (fresh a_CR_b))) = Some a_LF_b /\
  disk (fst (main Windows (fresh a_CR_b))) = Some a_CRLF_b /\
  disk (fst (main Windows (fresh a_LF_b))) = Some a_CRLF_b /\
  disk (fst (main Posix (fresh a_CRLF_b))) = Some a_LF_b /\
  a_LF_b <> a_CR_b /\ a_CRLF_b <> a_CR_b /\ a_CRLF_b <> a_LF_b.
Proof.
  repeat split; try (vm_compute; reflexivity); discriminate.
Qed.

(** C9, amended: for a file that begins with a UTF-8 BOM, holds neither
    pattern and whose line breaks are all the platform's own (line feeds
    and no carriage return where [os.linesep] is a line feed, carriage
    return and line feed pairs only on Windows), reading it and writing it
    back leaves the bytes as they were: the BOM dropped by the read is put
    back by the write. *)
Theorem bom_round_trip (p : platform) (w : world) (rest : bytes) (t : text) :
  disk w = Some (BOM_UTF8 ++ rest) ->
  readable w = true -> writable w = true ->
  utf_8_decode rest = Some t ->
  native_newlines p t = true ->
  contains (translate_read t) old_notif = false ->
  contains (translate_read t) old_close = false ->
  snd (main p w) = inr tt /\ disk (fst (main p w)) = disk w.
Proof.
  intros Hd Hr Hw Hdec Hnl Hn Hc.
  assert (HT : file_text w = Some (translate_read t)).
  { unfold file_text. now rewrite Hd, utf_8_sig_decode_BOM, Hdec. }
  destruct (main_run p w _ Hr Hw HT) as (body & Hbody & ->).
  split; [reflexivity|]. cbn [fst disk]. rewrite Hd.
  rewrite (patch_absent _ Hn Hc), (translate_write_read p t Hnl) in Hbody.
  rewrite (utf_8_decode_encode _ _ Hdec) in Hbody. now injection Hbody as ->.
Qed.

Lemma bom_round_trip_witness :
  disk (fresh a_CRLF_b) = Some (BOM_UTF8 ++ [x61; x0d; x0a; x62]) /\
  readable (fresh a_CRLF_b) = true /\ writable (fresh a_CRLF_b) = true /\
  utf_8_decode [x61; x0d; x0a; x62] = Some [97; 13; 10; 98] /\
  native_newlines Windows [97; 13; 10; 98] = true /\
  contains (translate_read [97; 13; 10; 98]) old_notif = false /\
  contains (translate_read [97; 13; 10; 98]) old_close = false /\
  snd (main Windows (fresh a_CRLF_b)) = inr tt /\
  disk (fst (main Windows (fresh a_CRLF_b))) = disk (fresh a_CRLF_b).
Proof.
  do 7 (split; [vm_compute; reflexivity|]).
  apply (bom_round_trip Windows (fresh a_CRLF_b) [x61; x0d; x0a; x62]
           [97; 13; 10; 98]); vm_compute; reflexivity.
Defined.

(** C10, as stated, fails: the BOM in front is not always the only change.
    A file without BOM that reads [a], carriage return, line feed, [b] is
    left as the BOM, [a], line feed, [b] where [os.linesep] is a line feed;
    one with a line feed alone gets a carriage return before it on Windows;
    and the two bytes [EF BB], which the reader takes for the beginning of a
    BOM and reads as the empty text, are left as the BOM alone.  Neither
    pattern occurs in any of the three. *)
Lemma bom_is_not_the_only_change :
  bytes_startswith [x61; x0d; x0a; x62] BOM_UTF8 = false /\
  file_text (fresh [x61; x0d; x0a; x62]) = Some [97; 10; 98] /\
  contains [97; 10; 98] old_notif = false /\
  contains [97; 10; 98] old_close = false /\
  disk (fst (main Posix (fresh [x61; x0d; x0a; x62])))
    = Some (BOM_UTF8 ++ [x61; x0a; x62]) /\
  BOM_UTF8 ++ [x61; x0a; x62] <> BOM_UTF8 ++ [x61; x0d; x0a; x62] /\
  bytes_startswith [x61; x0a; x62] BOM_UTF8 = false /\
  disk (fst (main Windows (fresh [x61; x0a; x62])))
    = Some (BOM_UTF8 ++ [x61; x0d; x0a; x62]) /\
  BOM_UTF8 ++ [x61; x0d; x0a; x62] <> BOM_UTF8 ++ [x61; x0a; x62] /\
  bytes_startswith [xef; xbb] BOM_UTF8 = false /\
  file_text (fresh [xef; xbb]) = Some [] /\
  disk (fst (main Posix (fresh [xef; xbb]))) = Some BOM_UTF8 /\
  disk (fst (main Windows (fresh [xef; xbb]))) = Some BOM_UTF8 /\
  BOM_UTF8 <> BOM_UTF8 ++ [xef; xbb].
Proof.
  repeat split; try (vm_compute; reflexivity); discriminate.
Qed.

(** C10, amended: the bytes a run leaves always begin with a UTF-8 BOM,
    since the file is written with [utf-8-sig] on every run.  So for every
    input file that does not begin with a BOM the bytes after the run
    differ from the original ones, also when neither pattern occurs and the
    text in memory is unchanged: they are the BOM and the UTF-8 bytes of
    the text, its line feeds written as [os.linesep].  In that case they are
    the BOM followed by the original bytes whenever the original bytes are
    well-formed UTF-8 and the line breaks of the file are the platform's
    own. *)
Theorem output_begins_with_bom
    (p : platform) (w : world) (data : bytes) (T : text) :
  disk w = Some data ->
  readable w = true -> writable w = true -> file_text w = Some T ->
  exists body,
    disk (fst (main p w)) = Some (BOM_UTF8 ++ body) /\
    utf_8_encode (translate_write p (patch T)) = Some body /\
    (bytes_startswith data BOM_UTF8 = false ->
     disk (fst (main p w)) <> disk w) /\
    (contains T old_notif = false -> contains T old_close = false ->
     patch T = T /\ utf_8_encode (translate_write p T) = Some body) /\
    (forall t,
       bytes_startswith data BOM_UTF8 = false ->
       utf_8_decode data = Some t -> native_newlines p t = true ->
       contains T old_notif = false -> contains T old_close = false ->
       body = data).
Proof.
  intros Hd Hr Hw HT.
  destruct (main_run p w T Hr Hw HT) as (body & Hbody & E).
  exists body. rewrite E. cbn [fst disk].
  split; [reflexivity|]. split; [exact Hbody|]. split; [|split].
  - intros Hbom Heq. rewrite Hd in Heq. apply some_inj in Heq. subst data.
    now rewrite bytes_startswith_app in Hbom.
  - intros Hn Hc. rewrite <- (patch_absent T Hn Hc) at 3.
    split; [now apply patch_absent|exact Hbody].
  - intros t Hbom Hdec Hnl Hn Hc.
    pose proof (utf_8_sig_decode_plain data t Hbom Hdec) as Hsig.
    unfold file_text in HT. rewrite Hd, Hsig in HT. injection HT as <-.
    rewrite (patch_absent _ Hn Hc), (translate_write_read p t Hnl) in Hbody.
    rewrite (utf_8_decode_encode _ _ Hdec) in Hbody. now injection Hbody.
Qed.

Lemma output_begins_with_bom_witness :
  disk (fresh abc) = Some abc /\
  readable (fresh abc) = true /\ writable (fresh abc) = true /\
  file_text (fresh abc) = Some (txt "abc") /\
  exists body,
    disk (fst (main Posix (fresh abc))) = Some (BOM_UTF8 ++ body) /\
    utf_8_encode (translate_write Posix (patch (txt "abc"))) = Some body /\
    (bytes_startswith abc BOM_UTF8 = false ->
     disk (fst (main Posix (fresh abc))) <> disk (fresh abc)) /\
    (contains (txt "abc") old_notif = false ->
     contains (txt "abc") old_close = false ->
     patch (txt "abc") = txt "abc" /\
     utf_8_encode (translate_write Posix (txt "abc")) = Some body) /\
    (forall t,
       bytes_startswith abc BOM_UTF8 = false ->
       utf_8_decode abc = Some t -> native_newlines Posix t = true ->
       contains (txt "abc") old_notif = false ->
       contains (txt "abc") old_close = false ->
       body = abc).
Proof.
  do 4 (split; [vm_compute; reflexivity|]).
  apply (output_begins_with_bom Posix (fresh abc) abc (txt "abc"));
    vm_compute; reflexivity.
Defined.

(** ** Beyond the scenarios: a second run, and runs that fail *)

Lemma patch_patch (T : text) : patch (patch T) = patch T.
Proof.
  apply patch_absent;
    [apply patch_leaves_no_old_notif|apply patch_leaves_no_old_close].
Qed.

(** X1: running the script a second time changes nothing.  After a run
    that ended normally, another run ends normally too and leaves the bytes
    of the file as the first run left them. *)
Theorem second_run_changes_nothing (p : platform) (w : world) (T : text) :
  readable w = true -> writable w = true -> file_text w = Some T ->
  snd (main p (fst (main p w))) = inr tt /\
  disk (fst (main p (fst (main p w)))) = disk (fst (main p w)).
Proof.
  intros Hr Hw HT.
  pose proof (main_file_text p w T Hr Hw HT) as HT1.
  destruct (main_run p w T Hr Hw HT) as (body & Hbody & E).
  rewrite E in *. cbn [fst] in *.
  match type of HT1 with file_text ?w1 = _ =>
    destruct (main_run p w1 (patch T) eq_refl eq_refl HT1)
      as (body' & Hbody' & E')
  end.
  rewrite E'. cbn [fst snd disk]. split; [reflexivity|].
  rewrite patch_patch, Hbody in Hbody'. now injection Hbody' as <-.
Qed.

Lemma second_run_changes_nothing_witness :
  readable (fresh (bytes_of old_notif)) = true /\
  writable (fresh (bytes_of old_notif)) = true /\
  file_text (fresh (bytes_of old_notif)) = Some old_notif /\
  snd (main Windows (fst (main Windows (fresh (bytes_of old_notif)))))
    = inr tt /\
  disk (fst (main Windows (fst (main Windows (fresh (bytes_of old_notif))))))
    = disk (fst (main Windows (fresh (bytes_of old_notif)))).
Proof.
  split; [reflexivity|]. split; [reflexivity|].
  split; [vm_compute; reflexivity|].
  apply (second_run_changes_nothing Windows (fresh (bytes_of old_notif))
           old_notif); vm_compute; reflexivity.
Defined.

(** X2: a run that cannot read, decode or open the file for writing ends
    with an exception before anything is written: the bytes of the file are
    untouched and nothing is printed. *)
Theorem failed_run_writes_nothing (p : platform) (w : world) :
  readable w = false \/ writable w = false \/ file_text w = None ->
  exists e,
    snd (main p w) = inl e /\
    disk (fst (main p w)) = disk w /\
    stdout (fst (main p w)) = stdout w.
Proof.
  intros H. unfold main, bind, open_for_reading, file_text in *.
  destruct (disk w) as [data|] eqn:Hd; [|now exists FileNotFoundError].
  destruct (readable w) eqn:Hr; [|now exists PermissionError].
  unfold decode_text.
  destruct (utf_8_sig_decode data) as [t|] eqn:Et;
    [|exists UnicodeDecodeError; cbn; auto].
  unfold ret, open_for_writing. cbn [writable log].
  destruct (writable w) eqn:Hw; [|exists PermissionError; cbn; auto].
  destruct H as [H|[H|H]]; discriminate.
Qed.

Lemma failed_run_writes_nothing_witness :
  (readable (fresh [xff]) = false \/ writable (fresh [xff]) = false \/
   file_text (fresh [xff]) = None) /\
  exists e,
    snd (main Posix (fresh [xff])) = inl e /\
    disk (fst (main Posix (fresh [xff]))) = disk (fresh [xff]) /\
    stdout (fst (main Posix (fresh [xff]))) = stdout (fresh [xff]).
Proof.
  assert (H : readable (fresh [xff]) = false \/
              writable (fresh [xff]) = false \/
              file_text (fresh [xff]) = None)
    by (right; right; vm_compute; reflexivity).
  split; [exact H|].
  apply (failed_run_writes_nothing Posix (fresh [xff]) H).
Defined.

(** ** How the two rules compose *)

(** The scan copies a block in which no occurrence of the pattern starts. *)
Lemma replace_passes (old new w post : text) :
  old <> [] ->
  contains w old = false -> border w old = false ->
  replace (w ++ post) old new = w ++ replace post old new.
Proof.
  intros Hne Hin Hbd.
  enough (H : forall w2 w1, w = w1 ++ w2 ->
            replace (w2 ++ post) old new = w2 ++ replace post old new)
    by exact (H w [] eq_refl).
  induction w2 as [|d w2 IH]; intros w1 Hw; [reflexivity|].
  cbn [app]. rewrite replace_miss; [|exact Hne|].
  - f_equal. apply (IH (w1 ++ [d])). now rewrite <- app_assoc.
  - destruct (startswith (d :: w2 ++ post) old) eqn:E; [|reflexivity].
    exfalso. apply startswith_inv in E as [t E].
    change (d :: w2 ++ post) with ((d :: w2) ++ post) in E.
    apply app_eq_app in E as [l [[E1 E2]|[E1 E2]]].
    + apply (contains_false _ _ Hin w1 l). now rewrite Hw, E1.
    + apply (border_false _ _ Hbd w1 (d :: w2) l Hw);
        [discriminate|exact E1].
Qed.

(** A block that cannot share characters with the pattern splits the scan:
    the block is copied, and the text on either side is scanned on its
    own. *)
Lemma replace_around_block (old new w y z : text) :
  old <> [] -> w <> [] -> overlap w old = false ->
  replace (y ++ w ++ z) old new
    = replace y old new ++ w ++ replace z old new.
Proof.
  intros Hne Hw Hov.
  apply overlap_false in Hov as (Hwo & How & Hbwo & Hbow).
  revert y. apply (replace_ind old new Hne
    (fun y ry => replace (y ++ w ++ z) old new
                 = ry ++ w ++ replace z old new)).
  - cbn [app]. now apply replace_passes.
  - intros r IH. rewrite <- !app_assoc, (replace_hit _ _ Hne), IH.
    reflexivity.
  - intros c s Hc IH. cbn [app].
    rewrite replace_miss; [now rewrite IH|exact Hne|].
    destruct (startswith (c :: s ++ w ++ z) old) eqn:E; [|reflexivity].
    exfalso. apply startswith_inv in E as [t E].
    change (c :: s ++ w ++ z) with ((c :: s) ++ w ++ z) in E.
    apply app_eq_app in E as [l [[E1 E2]|[E1 E2]]].
    + apply (startswith_false _ _ Hc l E1).
    + destruct l as [|d l].
      * apply (startswith_false _ _ Hc []).
        rewrite app_nil_r in *. now symmetry.
      * apply app_eq_app in E2 as [m [[E3 E4]|[E3 E4]]].
        -- (* an end of the occurrence begins the block *)
           apply (border_false _ _ Hbow (c :: s) (d :: l) m E1);
             [discriminate|exact E3].
        -- (* the block lies inside the occurrence *)
           apply (contains_false _ _ How (c :: s) m). now rewrite E1, E3.
Qed.

(** Two rules whose patterns cannot share characters with each other or
    with the other rule's replacement give the same text in either
    order. *)
Lemma replace_commute (a a' b b' : text) :
  a <> [] -> b <> [] ->
  overlap a b = false -> overlap a b' = false -> overlap a' b = false ->
  forall T,
    replace (replace T a a') b b' = replace (replace T b b') a a'.
Proof.
  intros Ha Hb Hab Hab' Ha'b T.
  apply overlap_false in Hab as (Hab1 & Hab2 & Hab3 & Hab4).
  apply overlap_false in Hab' as (Hab'1 & Hab'2 & Hab'3 & Hab'4).
  apply overlap_false in Ha'b as (Ha'b1 & Ha'b2 & Ha'b3 & Ha'b4).
  remember (List.length T) as n eqn:Hn. revert T Hn.
  induction n as [n IH] using lt_wf_ind. intros T Hn.
  destruct T as [|c T'].
  { now rewrite !replace_nil. }
  destruct (startswith (c :: T') a) eqn:Ea.
  { (* an occurrence of [a] starts here *)
    apply startswith_inv in Ea as [r Er]. rewrite Er.
    rewrite (replace_hit _ _ Ha), (replace_passes b b' a' _ Hb Ha'b1 Ha'b3).
    rewrite (replace_passes b b' a r Hb Hab1 Hab3), (replace_hit _ _ Ha).
    f_equal. apply (IH (List.length r)); [|reflexivity].
    subst n. rewrite Er, length_app. destruct a; [congruence|simpl; lia]. }
  destruct (startswith (c :: T') b) eqn:Eb.
  { (* an occurrence of [b] starts here *)
    apply startswith_inv in Eb as [r Er]. rewrite Er.
    rewrite (replace_passes a a' b r Ha Hab2 Hab4), (replace_hit _ _ Hb).
    rewrite (replace_hit _ _ Hb), (replace_passes a a' b' _ Ha Hab'2 Hab'4).
    f_equal. apply (IH (List.length r)); [|reflexivity].
    subst n. rewrite Er, length_app. destruct b; [congruence|simpl; lia]. }
  (* neither starts here: the character is copied by both rules, twice *)
  rewrite (replace_miss _ _ Ha _ _ Ea), (replace_miss _ _ Hb _ _ Eb).
  rewrite (replace_miss b b' Hb c (replace T' a a')).
  2:{ destruct (startswith (c :: replace T' a a') b) eqn:E; [|reflexivity].
      exfalso. apply startswith_inv in E as [v E].
      destruct (nonempty_inv b Hb) as (d & bt & Eb').
      rewrite Eb' in E. cbn [app] in E. injection E as Ec E. subst d.
      destruct (replace_prefix_copied a a' Ha b T' [c] bt v Ha'b2 Ha'b4 Eb' E)
        as [y' Ey].
      apply (startswith_false _ _ Eb y'). now rewrite Ey, Eb'. }
  rewrite (replace_miss a a' Ha c (replace T' b b')).
  2:{ destruct (startswith (c :: replace T' b b') a) eqn:E; [|reflexivity].
      exfalso. apply startswith_inv in E as [v E].
      destruct (nonempty_inv a Ha) as (d & at' & Ea').
      rewrite Ea' in E. cbn [app] in E. injection E as Ec E. subst d.
      destruct (replace_prefix_copied b b' Hb a T' [c] at' v Hab'1 Hab'3 Ea' E)
        as [y' Ey].
      apply (startswith_false _ _ Ea y'). now rewrite Ey, Ea'. }
  f_equal. apply (IH (List.length T')); [subst n; simpl; lia|reflexivity].
Qed.

Lemma old_notif_old_close_apart : overlap old_notif old_close = false.
Proof. rewrite overlap_sym. exact old_close_old_notif_apart. Qed.

(** X3: the order of the two rules does not matter.  For every text,
    applying the close-after-action rule first and the notification rule
    second gives the same text as the order of the script. *)
Theorem rule_order_is_immaterial (T : text) :
  replace (replace T old_notif new_notif) old_close new_close
    = replace (replace T old_close new_close) old_notif new_notif.
Proof.
  apply replace_commute.
  - exact old_notif_nonempty.
  - exact old_close_nonempty.
  - exact old_notif_old_close_apart.
  - exact old_notif_new_close_apart.
  - exact new_notif_old_close_apart.
Qed.

Lemma patch_at_old_notif (x y : text) :
  patch (x ++ old_notif ++ y) = patch x ++ new_notif ++ patch y.
Proof.
  unfold patch.
  rewrite (replace_occurrence _ _ old_notif_nonempty x y old_notif_unbordered).
  apply replace_around_block.
  - exact old_close_nonempty.
  - exact new_notif_nonempty.
  - exact new_notif_old_close_apart.
Qed.

Lemma patch_at_old_close (x y : text) :
  patch (x ++ old_close ++ y) = patch x ++ new_close ++ patch y.
Proof.
  unfold patch.
  rewrite (replace_around_block old_notif new_notif old_close x y
             old_notif_nonempty old_close_nonempty old_close_old_notif_apart).
  exact (replace_occurrence _ _ old_close_nonempty _ _ old_close_unbordered).
Qed.

(** X4: the patch works block by block.  Wherever one of the two old blocks
    stands in a text, the patched text has the new block at that place,
    between the patched text before it and the patched text after it. *)
Theorem patch_splits_at_blocks (x y : text) :
  patch (x ++ old_notif ++ y) = patch x ++ new_notif ++ patch y /\
  patch (x ++ old_close ++ y) = patch x ++ new_close ++ patch y.
Proof. split; [apply patch_at_old_notif|apply patch_at_old_close]. Qed.

(** X5: the rest of the file is left as it is.  When the text of the file
    is the first old block and, further down, the second old block, with
    text around them that holds neither, the file after the run reads as
    the same surrounding text with the two new blocks in their places. *)
Theorem rest_of_file_untouched
    (p : platform) (w : world) (x y z : text) :
  readable w = true -> writable w = true ->
  file_text w = Some (x ++ old_notif ++ y ++ old_close ++ z) ->
  contains x old_notif = false -> contains x old_close = false ->
  contains y old_notif = false -> contains y old_close = false ->
  contains z old_notif = false -> contains z old_close = false ->
  file_text (fst (main p w))
    = Some (x ++ new_notif ++ y ++ new_close ++ z).
Proof.
  intros Hr Hw HT Hx1 Hx2 Hy1 Hy2 Hz1 Hz2.
  rewrite (main_file_text p w _ Hr Hw HT).
  rewrite patch_at_old_notif, patch_at_old_close.
  now rewrite !patch_absent.
Qed.

Lemma rest_of_file_untouched_witness :
  readable (fresh (bytes_of sample_text)) = true /\
  writable (fresh (bytes_of sample_text)) = true /\
  file_text (fresh (bytes_of sample_text))
    = Some (sample_head ++ old_notif ++ sample_middle ++ old_close
            ++ sample_tail) /\
  contains sample_head old_notif = false /\
  contains sample_head old_close = false /\
  contains sample_middle old_notif = false /\
  contains sample_middle old_close = false /\
  contains sample_tail old_notif = false /\
  contains sample_tail old_close = false /\
  file_text (fst (main Windows (fresh (bytes_of sample_text))))
    = Some (sample_head ++ new_notif ++ sample_middle ++ new_close
            ++ sample_tail).
Proof.
  do 9 (split; [vm_compute; reflexivity|]).
  apply (rest_of_file_untouched Windows (fresh (bytes_of sample_text))
           sample_head sample_middle sample_tail); vm_compute; reflexivity.
Defined.






(** X6: encoding the patched text cannot fail.  Whatever text the file
    decodes to, the text handed to [f.write] holds Unicode scalar values
    only, no surrogate, on either platform, so its UTF-8 bytes exist: the
    write cannot end in [UnicodeEncodeError] once the file has been opened
    for writing and truncated. *)
Theorem patched_text_is_encodable (p : platform) (w : world) (T : text) :
  file_text w = Some T ->
  forallb is_scalar (translate_write p (patch T)) = true /\
  exists data,
    utf_8_sig_encode (translate_write p (patch T)) = Some data.
Proof.
  intros HT.
  pose proof (file_text_scalar w T HT) as Hs.
  apply patch_scalar, (forallb_translate_write p) in Hs.
  split; [exact Hs|].
  apply utf_8_encode_scalar in Hs as [body Hbody].
  exists (BOM_UTF8 ++ body). unfold utf_8_sig_encode. now rewrite Hbody.
Qed.

Lemma patched_text_is_encodable_witness :
  file_text (fresh (bytes_of both_blocks)) = Some both_blocks /\
  forallb is_scalar (translate_write Windows (patch both_blocks)) = true /\
  exists data,
    utf_8_sig_encode (translate_write Windows (patch both_blocks))
      = Some data.
Proof.
  split; [vm_compute; reflexivity|].
  apply (patched_text_is_encodable Windows (fresh (bytes_of both_blocks))
           both_blocks); vm_compute; reflexivity.
Defined.

Lemma translate_write_native (p : platform) (s : text) :
  existsb (N.eqb CR) s = false ->
  native_newlines p (translate_write p s) = true.
Proof.
  intros H. destruct p; cbn [native_newlines].
  - unfold translate_write. cbn [writenl]. now rewrite H.
  - rewrite translate_write_chars.
    induction s as [|c s IH]; [reflexivity|].
    cbn [existsb] in H. apply orb_false_iff in H as [Hc Hs].
    specialize (IH Hs). cbn [flat_map write_char].
    destruct (N.eqb_spec c LF) as [->|Hlf].
    + cbn [app crlf_only]. now rewrite !N.eqb_refl, IH.
    + cbn [app crlf_only]. rewrite N.eqb_sym, Hc.
      destruct (N.eqb_spec c LF); [contradiction|]. now rewrite IH.
Qed.

(** X7: a run normalises the line breaks.  After a run that ended normally
    the file decodes, and every line break in it is the platform's own: no
    carriage return is left where [os.linesep] is a line feed, and on
    Windows every line break is a carriage return and line feed pair,
    whatever mix of line breaks the file had before. *)
Theorem line_breaks_normalised (p : platform) (w : world) (T : text) :
  readable w = true -> writable w = true -> file_text w = Some T ->
  exists data t,
    disk (fst (main p w)) = Some data /\
    utf_8_sig_decode data = Some t /\
    native_newlines p t = true.
Proof.
  intros Hr Hw HT.
  destruct (main_run p w T Hr Hw HT) as (body & Hbody & ->).
  exists (BOM_UTF8 ++ body), (translate_write p (patch T)). cbn [fst disk].
  split; [reflexivity|]. split.
  - now rewrite utf_8_sig_decode_BOM, (utf_8_encode_decode _ _ Hbody).
  - apply translate_write_native, patch_no_CR.
    exact (file_text_no_CR w T HT).
Qed.

Lemma line_breaks_normalised_witness :
  readable (fresh mixed_breaks) = true /\
  writable (fresh mixed_breaks) = true /\
  file_text (fresh mixed_breaks) = Some [97; 10; 98; 10; 99; 10; 100] /\
  exists data t,
    disk (fst (main Windows (fresh mixed_breaks))) = Some data /\
    utf_8_sig_decode data = Some t /\
    native_newlines Windows t = true.
Proof.
  do 3 (split; [vm_compute; reflexivity|]).
  apply (line_breaks_normalised Windows (fresh mixed_breaks)
           [97; 10; 98; 10; 99; 10; 100]); vm_compute; reflexivity.
Defined.

(** X8: a file that holds neither pattern keeps its text.  The run may
    change its bytes (a BOM in front, other line breaks), but the file reads
    back as the text it had. *)
Theorem unmatched_text_is_kept (p : platform) (w : world) (T : text) :
  readable w = true -> writable w = true -> file_text w = Some T ->
  contains T old_notif = false -> contains T old_close = false ->
  file_text (fst (main p w)) = file_text w.
Proof.
  intros Hr Hw HT Hn Hc.
  now rewrite (main_file_text p w T Hr Hw HT), (patch_absent T Hn Hc).
Qed.

Lemma unmatched_text_is_kept_witness :
  readable (fresh mixed_breaks) = true /\
  writable (fresh mixed_breaks) = true /\
  file_text (fresh mixed_breaks) = Some [97; 10; 98; 10; 99; 10; 100] /\
  contains [97; 10; 98; 10; 99; 10; 100] old_notif = false /\
  contains [97; 10; 98; 10; 99; 10; 100] old_close = false /\
  file_text (fst (main Windows (fresh mixed_breaks)))
    = file_text (fresh mixed_breaks).
Proof.
  do 5 (split; [vm_compute; reflexivity|]).
  apply (unmatched_text_is_kept Windows (fresh mixed_breaks)
           [97; 10; 98; 10; 99; 10; 100]); vm_compute; reflexivity.
Defined.

(** X9: what a run writes depends on the text of the file only.  Two files
    that read as the same text, with or without a BOM and whatever their
    line breaks, hold the same bytes after a run on the same platform. *)
Theorem output_depends_on_text_only
    (p : platform) (w1 w2 : world) (T : text) :
  readable w1 = true -> writable w1 = true -> file_text w1 = Some T ->
  readable w2 = true -> writable w2 = true -> file_text w2 = Some T ->
  disk (fst (main p w1)) = disk (fst (main p w2)).
Proof.
  intros Hr1 Hw1 HT1 Hr2 Hw2 HT2.
  destruct (main_run p w1 T Hr1 Hw1 HT1) as (body1 & Hbody1 & ->).
  destruct (main_run p w2 T Hr2 Hw2 HT2) as (body2 & Hbody2 & ->).
  cbn [fst disk]. congruence.
Qed.

Lemma output_depends_on_text_only_witness :
  readable (fresh a_CR_b) = true /\ writable (fresh a_CR_b) = true /\
  file_text (fresh a_CR_b) = Some [97; 10; 98] /\
  readable (fresh [x61; x0a; x62]) = true /\
  writable (fresh [x61; x0a; x62]) = true /\
  file_text (fresh [x61; x0a; x62]) = Some [97; 10; 98] /\
  disk (fst (main Windows (fresh a_CR_b)))
    = disk (fst (main Windows (fresh [x61; x0a; x62]))).
Proof.
  do 6 (split; [vm_compute; reflexivity|]).
  apply (output_depends_on_text_only Windows (fresh a_CR_b)
           (fresh [x61; x0a; x62]) [97; 10; 98]); vm_compute; reflexivity.
Defined.
